(** * Pinned blocks of the chainHead follow subscription

    A shallow embedding of
    [packages/client/src/observableClient/chainHead/streams/pinned-blocks.ts]:
    the reducer that [scan] folds over the merged event stream, the
    publication step [map((x) => ({ ...x }))], and the cleaner that walks the
    finalized ancestry on every interval tick and feeds its confirmed set
    back to the reducer as an [unpin] event. *)

From stdpp Require Import gmap strings list fin_maps.
From Stdlib Require Import ZArith.

#[local] Set Warnings "-clear-no-such-hyp".

Local Open Scope Z_scope.

(** ** Data model *)

(** [interface PinnedBlock].  [number] and [refCount] are JavaScript numbers;
    they only ever hold integers here (a header number, and a counter moved
    by +1 / -1), far below 2^53, so they are integers of [Z].  [children] is
    a [Set<string>] whose iteration order is never observed in this file. *)
Record PinnedBlock := mkPinnedBlock {
  hash : string;
  number : Z;
  parent : string;
  children : gset string;
  runtime : string;
  refCount : Z;
}.

Definition withChildren (b : PinnedBlock) (c : gset string) : PinnedBlock :=
  {| hash := hash b; number := number b; parent := parent b;
     children := c; runtime := runtime b; refCount := refCount b |}.

Definition withRefCount (b : PinnedBlock) (n : Z) : PinnedBlock :=
  {| hash := hash b; number := number b; parent := parent b;
     children := children b; runtime := runtime b; refCount := n |}.

(** Modelled from the spec: [Runtime] and [getRuntimeCreator] come from
    [./get-runtime-creator], which is not among the sources.  The spec
    (sections 2, 3 and 4.2) describes a descriptor created for a block hash
    that "reference-counts which blocks use" it: [addBlock] counts one more
    block, [deleteBlocks] takes a batch of about-to-be-removed hashes, counts
    down for those of them that use this descriptor and returns the count
    that remains; a descriptor created for a block is in use by that block
    (the reducer's [initialized] case never calls [addBlock]).  The blocks
    using a descriptor are therefore kept as a set, and the usage counter is
    its size.  [activated] records that [runtime.subscribe()] was called. *)
Record Runtime := mkRuntime {
  at_ : string;
  usages : gset string;
  activated : bool;
}.

(** Modelled from the spec: the descriptor that [getRuntime(hash)] creates;
    it is in use by the block it is created for and not yet activated. *)
Definition getRuntime (h : string) : Runtime :=
  {| at_ := h; usages := {[ h ]}; activated := false |}.

(** Modelled from the spec: [addBlock(hash)], one more block uses the
    descriptor. *)
Definition addBlock (h : string) (r : Runtime) : Runtime :=
  {| at_ := at_ r; usages := usages r ∪ {[ h ]}; activated := activated r |}.

(** Modelled from the spec: [deleteBlocks(hashes)], the blocks among
    [hashes] stop using the descriptor; the call returns [usageCount] of the
    result. *)
Definition deleteBlocks (hs : list string) (r : Runtime) : Runtime :=
  {| at_ := at_ r; usages := usages r ∖ list_to_set hs; activated := activated r |}.

(** Modelled from the spec: [runtime.subscribe()], the descriptor starts its
    activation. *)
Definition subscribe (r : Runtime) : Runtime :=
  {| at_ := at_ r; usages := usages r; activated := true |}.

(** Modelled from the spec: the usage counter of a descriptor. *)
Definition usageCount (r : Runtime) : nat := size (usages r).

(** The value of the [finalizedRuntime] field: the seed's [{}], [undefined]
    (a lookup in [runtimes] that found nothing), or a reference to a Runtime
    object. *)
Inductive RuntimeRef :=
| seedRuntime
| undefinedRuntime
| runtimeAt (l : nat).

(** [type PinnedBlocks], the accumulator of the scan.  [blocks] holds the
    contents of the accumulator's [Map]; every node object is referenced from
    its entry of the Map only, so nodes are stored by value.  Runtime objects
    are referenced twice, from [runtimes] and from [finalizedRuntime]; they
    live in [registry], in order of creation, and are referred to by their
    index there. *)
Record PinnedBlocks := mkPinnedBlocks {
  best : string;
  finalized : string;
  runtimes : gmap string nat;
  blocks : gmap string PinnedBlock;
  finalizedRuntime : RuntimeRef;
  registry : list Runtime;
}.

(** The seed of the scan. *)
Definition seed : PinnedBlocks :=
  {| best := ""; finalized := ""; runtimes := ∅; blocks := ∅;
     finalizedRuntime := seedRuntime; registry := [] |}.

(** ** Events *)

Inductive Usage := Hold | Release.

(** The events merged into the scan.  [Initialized] is the follow event
    after [followWithInitializedNumber$] has added the header's [number] and
    [parentHash]; [BlockUsage] is [BlockUsageEvent]; [Unpin] is what the
    feedback channel delivers. *)
Inductive Event :=
| Initialized (finalizedBlockHash : string) (number : Z) (parentHash : string)
| NewBlock (parentBlockHash blockHash : string) (newRuntime : bool)
| BestBlockChanged (bestBlockHash : string)
| Finalized (finalizedBlockHashes : list string)
| BlockUsage (value : Usage) (h : string)
| Unpin (hashes : list string).

(** A reducer call returns the accumulator or throws: every failure in this
    file is the [TypeError] of reading a property of [undefined] (the
    non-null assertions [!] are erased by the compiler).  An error thrown
    inside [scan] is sent down the stream as its error, which ends it; what
    the accumulator held at that point is not kept. *)
Inductive Result :=
| Ok (acc : PinnedBlocks)
| TypeError.

(** ** The reducer *)

(** [unpin], one turn of [event.hashes.forEach]. *)
Definition unpinBlock (blocks : gmap string PinnedBlock) (h : string)
  : gmap string PinnedBlock :=
  match blocks !! h with
  | None => blocks
  | Some b =>
      delete h
        (alter (fun p => withChildren p (children p ∖ {[ h ]})) (parent b) blocks)
  end.

(** [Object.entries(acc.runtimes).map(([key, value]) => ({ key, usages:
    value.deleteBlocks(event.hashes) }))]: the calls run in order on the
    Runtime objects, each returning the count left at that moment. *)
Fixpoint mapDeleteBlocks (hashes : list string) (entries : list (string * nat))
    (reg : list Runtime) : list (string * option nat) * list Runtime :=
  match entries with
  | [] => ([], reg)
  | (key, l) :: rest =>
      let reg1 := alter (deleteBlocks hashes) l reg in
      let u := usageCount <$> reg1 !! l in
      let '(out, reg2) := mapDeleteBlocks hashes rest reg1 in
      ((key, u) :: out, reg2)
  end.

(** [.filter((x) => x.usages === 0).map((x) => x.key)] *)
Definition unusedRuntimes (counted : list (string * option nat)) : list string :=
  (filter (fun x : string * option nat => x.2 = Some 0%nat) counted).*1.

(** The function given to [scan], one case of its [switch] per event.  In
    the [unpin] case the entries of [acc.runtimes] are taken in the order of
    [map_to_list]; the case's result is the same for every order
    ([mapDeleteBlocks_registry], [mapDeleteBlocks_counts]).  The keys of
    [acc.runtimes] are block hashes, never names of [Object.prototype]. *)
Definition reduce (acc : PinnedBlocks) (event : Event) : Result :=
  match event with
  | Initialized hash number parentHash =>
      let l := length (registry acc) in
      Ok {| best := hash;
            finalized := hash;
            runtimes := <[hash := l]> (runtimes acc);
            blocks :=
              <[hash := {| hash := hash; number := number; parent := parentHash;
                           children := ∅; runtime := hash; refCount := 0 |}]>
                (blocks acc);
            finalizedRuntime := runtimeAt l;
            registry := registry acc ++ [getRuntime hash] |}
  | NewBlock parent hash newRuntime =>
      match blocks acc !! parent with
      | None => TypeError
      | Some parentNode =>
          let blocks1 :=
            <[parent := withChildren parentNode (children parentNode ∪ {[ hash ]})]>
              (blocks acc) in
          let runtimes1 :=
            if newRuntime then <[hash := length (registry acc)]> (runtimes acc)
            else runtimes acc in
          let registry1 :=
            if newRuntime then registry acc ++ [subscribe (getRuntime hash)]
            else registry acc in
          let block :=
            {| hash := hash; number := number parentNode + 1; parent := parent;
               children := ∅;
               runtime := if newRuntime then hash else runtime parentNode;
               refCount := 0 |} in
          match runtimes1 !! runtime block with
          | None => TypeError
          | Some l =>
              Ok {| best := best acc;
                    finalized := finalized acc;
                    runtimes := runtimes1;
                    blocks := <[hash := block]> blocks1;
                    finalizedRuntime := finalizedRuntime acc;
                    registry := alter (addBlock hash) l registry1 |}
          end
      end
  | BestBlockChanged bestBlockHash =>
      Ok {| best := bestBlockHash;
            finalized := finalized acc;
            runtimes := runtimes acc;
            blocks := blocks acc;
            finalizedRuntime := finalizedRuntime acc;
            registry := registry acc |}
  | Finalized finalizedBlockHashes =>
      match last finalizedBlockHashes with
      | None => TypeError
      | Some f =>
          match blocks acc !! f with
          | None => TypeError
          | Some b =>
              Ok {| best := best acc;
                    finalized := f;
                    runtimes := runtimes acc;
                    blocks := blocks acc;
                    finalizedRuntime :=
                      match runtimes acc !! runtime b with
                      | Some l => runtimeAt l
                      | None => undefinedRuntime
                      end;
                    registry := registry acc |}
          end
      end
  | BlockUsage value h =>
      match blocks acc !! h with
      | None => TypeError
      | Some b =>
          let delta := match value with Hold => 1 | Release => -1 end in
          Ok {| best := best acc;
                finalized := finalized acc;
                runtimes := runtimes acc;
                blocks := <[h := withRefCount b (refCount b + delta)]> (blocks acc);
                finalizedRuntime := finalizedRuntime acc;
                registry := registry acc |}
      end
  | Unpin hashes =>
      let counted := mapDeleteBlocks hashes (map_to_list (runtimes acc)) (registry acc) in
      Ok {| best := best acc;
            finalized := finalized acc;
            runtimes := foldl (fun m key => delete key m) (runtimes acc)
                          (unusedRuntimes counted.1);
            blocks := foldl unpinBlock (blocks acc) hashes;
            finalizedRuntime := finalizedRuntime acc;
            registry := counted.2 |}
  end.

(** [scan] over a finite prefix of the stream: the accumulator after the
    last event, or the error that ended the stream. *)
Fixpoint scan (acc : PinnedBlocks) (events : list Event) : Result :=
  match events with
  | [] => Ok acc
  | e :: rest =>
      match reduce acc e with
      | Ok acc' => scan acc' rest
      | TypeError => TypeError
      end
  end.

(** ** Publication *)

(** [map((x) => ({ ...x }))] copies the five fields of the accumulator into
    a new object.  [best] and [finalized] are strings and [finalizedRuntime]
    is a reference to a Runtime object: the copy keeps them.  [blocks] and
    [runtimes] are references too, to the [Map] and to the record that the
    seed allocated; no case of the reducer assigns [acc.blocks] or
    [acc.runtimes], so every published object refers to these same two
    objects, and what a consumer finds behind them is what they hold when it
    looks. *)
Record Snapshot := mkSnapshot {
  snapBest : string;
  snapFinalized : string;
  snapFinalizedRuntime : RuntimeRef;
}.

Definition publish (x : PinnedBlocks) : Snapshot :=
  {| snapBest := best x; snapFinalized := finalized x;
     snapFinalizedRuntime := finalizedRuntime x |}.

(** What a consumer reads from the published object [p] at a moment when the
    accumulator and the objects it shares are [now]. *)
Definition read (p : Snapshot) (now : PinnedBlocks) : PinnedBlocks :=
  {| best := snapBest p;
     finalized := snapFinalized p;
     runtimes := runtimes now;
     blocks := blocks now;
     finalizedRuntime := snapFinalizedRuntime p;
     registry := registry now |}.

(** ** The cleaner *)

(** How a computation of the cleaner ends: with a value, with a thrown
    [TypeError], or not within the given number of loop turns. *)
Inductive Outcome (A : Type) :=
| Returns (a : A)
| Throws
| OutOfFuel.
Arguments Returns {A} a.
Arguments Throws {A}.
Arguments OutOfFuel {A}.

(** [result.add(x)] on an insertion-ordered [Set]. *)
Definition setAdd (result : list string) (x : string) : list string :=
  if decide (x ∈ result) then result else result ++ [x].

(** The [while] loop of the cleaner, [fuel] bounding its turns. *)
Fixpoint walk (fuel : nat) (blocks : gmap string PinnedBlock)
    (current : PinnedBlock) (result : list string) : option (list string) :=
  match fuel with
  | O => None
  | S fuel' =>
      match blocks !! parent current with
      | None => Some result
      | Some next =>
          walk fuel' blocks next
            (if decide (refCount next = 0) then setAdd result (hash next)
             else result)
      end
  end.

(** The first [map] of [cleaner$]. *)
Definition collect (fuel : nat) (pinned : PinnedBlocks) : Outcome (list string) :=
  match blocks pinned !! finalized pinned with
  | None => Throws
  | Some current =>
      match walk fuel (blocks pinned) current [] with
      | Some result => Returns result
      | None => OutOfFuel
      end
  end.

(** [map(([prev, current]) => [...current].filter((x) => prev.has(x)))] *)
Definition confirmed (prev current : list string) : list string :=
  filter (fun x => x ∈ prev) current.

(** ** The client: reducer, cleaner and feedback channel together *)

(** [acc] is the accumulator of the scan with the objects it shares,
    [latest] the last value of [pinnedBlocks$] as [withLatestFrom] keeps it
    (none before the first event), [previous] the buffer of [pairwise]. *)
Record Client := mkClient {
  acc : PinnedBlocks;
  latest : option Snapshot;
  previous : option (list string);
}.

Definition start : Client :=
  {| acc := seed; latest := None; previous := None |}.

(** The events of [follow$] and [blockUsage$]; [unpin] events come from the
    feedback channel only. *)
Definition external (e : Event) : bool :=
  match e with
  | Unpin _ => false
  | _ => true
  end.

(** One event through [scan], [map] and [shareLatest]. *)
Definition deliver (c : Client) (e : Event) : Outcome Client :=
  match reduce (acc c) e with
  | Ok a => Returns {| acc := a; latest := Some (publish a); previous := previous c |}
  | TypeError => Throws
  end.

(** Modelled from the spec: [selfDependent] comes from [@/utils], which is
    not among the sources.  By section 4.4 of the spec the value that passes
    [connectUnpinnedBlocks()] is re-injected as an event of
    [unpinnedBlocks$]; the cleaner's chain is synchronous, so the [unpin]
    event is folded within the tick that produced it, before [onUnpin] is
    called and before any other event.

    One tick of [interval(100)] through [cleaner$].  The second component of
    the value is the array passed to [onUnpin] and sent as [unpin] event,
    empty when the [filter] stopped it or nothing was compared yet. *)
Definition tick (fuel : nat) (c : Client) : Outcome (Client * list string) :=
  match latest c with
  | None => Returns (c, [])
  | Some p =>
      match collect fuel (read p (acc c)) with
      | Throws => Throws
      | OutOfFuel => OutOfFuel
      | Returns current =>
          let c1 := {| acc := acc c; latest := latest c; previous := Some current |} in
          match previous c with
          | None => Returns (c1, [])
          | Some prev =>
              match confirmed prev current with
              | [] => Returns (c1, [])
              | hashes =>
                  match deliver c1 (Unpin hashes) with
                  | Returns c2 => Returns (c2, hashes)
                  | Throws => Throws
                  | OutOfFuel => OutOfFuel
                  end
              end
          end
      end
  end.

(** A run of external events. *)
Fixpoint deliverAll (c : Client) (events : list Event) : Outcome Client :=
  match events with
  | [] => Returns c
  | e :: rest =>
      match deliver c e with
      | Returns c' => deliverAll c' rest
      | Throws => Throws
      | OutOfFuel => OutOfFuel
      end
  end.

(** The states of a client whose pipeline is alive. *)
Inductive reachable : Client -> Prop :=
| reach_start : reachable start
| reach_event c e c' :
    reachable c -> external e = true -> deliver c e = Returns c' -> reachable c'
| reach_tick c fuel c' out :
    reachable c -> tick fuel c = Returns (c', out) -> reachable c'.

(** ** The block tree *)

(** [parentOf blocks k p]: the tracked block [k] has the tracked block [p]
    as its parent. *)
Definition parentOf (blocks : gmap string PinnedBlock) (k p : string) : Prop :=
  exists b, blocks !! k = Some b /\ parent b = p /\ is_Some (blocks !! p).

(** [a] is reached from [k] by one or more parent links. *)
Definition ancestorOf (blocks : gmap string PinnedBlock) : relation string :=
  tc (parentOf blocks).

(** Every node is stored under its own hash. *)
Definition hashKeyed (blocks : gmap string PinnedBlock) : Prop :=
  forall k b, blocks !! k = Some b -> hash b = k.

(** [d] lies on the path from [finalized] to [best], ends included. *)
Definition onPath (x : PinnedBlocks) (d : string) : Prop :=
  rtc (parentOf (blocks x)) d (finalized x) /\
  rtc (parentOf (blocks x)) (best x) d.


(** ** Predicates of the statements *)

(** The count that [deleteBlocks] returns for the Runtime object at [l]. *)
Definition countAfter (hs : list string) (reg : list Runtime) (l : nat) : option nat :=
  usageCount <$> (deleteBlocks hs <$> reg !! l).

(** No tracked block has a negative [refCount]. *)
Definition nonNegative (blocks : gmap string PinnedBlock) : Prop :=
  forall k b, blocks !! k = Some b -> 0 <= refCount b.

(** A release is matched when the block it is folded on has a positive
    [refCount] in the accumulator it is folded on; every other event is. *)
Definition matched (acc : PinnedBlocks) (e : Event) : bool :=
  match e with
  | BlockUsage Release h =>
      match blocks acc !! h with
      | Some b => bool_decide (0 < refCount b)
      | None => true
      end
  | _ => true
  end.

(** A sequence of events each of whose releases is matched in the
    accumulator it is folded on.  This is a condition on the accumulators
    along the fold, not on the number of holds sent before: an event that
    stores a block anew puts its [refCount] back to 0. *)
Fixpoint balanced (acc : PinnedBlocks) (events : list Event) : bool :=
  match events with
  | [] => true
  | e :: rest =>
      matched acc e &&
      match reduce acc e with
      | Ok acc' => balanced acc' rest
      | TypeError => true
      end
  end.

(** No block met from [k] on, [k] included, is its own ancestor. *)
Definition acyclicFrom (blocks : gmap string PinnedBlock) (k : string) : Prop :=
  forall a, rtc (parentOf blocks) k a -> ~ ancestorOf blocks a a.

(** The value kept by [withLatestFrom] is the copy of the accumulator as it
    is now. *)
Definition inSync (c : Client) : Prop :=
  forall p, latest c = Some p -> p = publish (acc c).

Definition clientInv (c : Client) : Prop :=
  hashKeyed (blocks (acc c)) /\ inSync c.

(** [h] is what a tick collects: a tracked strict ancestor of [finalized]
    whose [refCount] is 0. *)
Definition idleAncestor (x : PinnedBlocks) (h : string) : Prop :=
  ancestorOf (blocks x) (finalized x) h /\
  exists b, blocks x !! h = Some b /\ refCount b = 0.

(** The events that can change whether [h] is tracked or what its [refCount]
    is: a usage event for [h], and the events that store a node under [h] or
    remove it. *)
Definition touches (h : string) (e : Event) : bool :=
  match e with
  | Initialized x _ _ => bool_decide (x = h)
  | NewBlock _ x _ => bool_decide (x = h)
  | BlockUsage _ x => bool_decide (x = h)
  | Unpin hashes => bool_decide (h ∈ hashes)
  | BestBlockChanged _ | Finalized _ => false
  end.

(** The events whose case only moves a pointer of the accumulator. *)
Definition movesPointerOnly (e : Event) : bool :=
  match e with
  | BestBlockChanged _ | Finalized _ => true
  | _ => false
  end.

(** ** States for the examples *)

(** Two accumulators for the examples: the blocks A and B with B finalized,
    and a store that was sent [bestBlockChanged] before any [initialized]. *)
Definition twoBlocks : PinnedBlocks :=
  match scan seed [Initialized "A" 0 "P"; NewBlock "A" "B" false;
                   BestBlockChanged "B"; Finalized ["B"]] with
  | Ok s => s
  | TypeError => seed
  end.

Definition uninitialized : PinnedBlocks :=
  match reduce seed (BestBlockChanged "B") with
  | Ok s => s
  | TypeError => seed
  end.

(** The blocks A and B announced, A still best and finalized. *)
Definition announced : PinnedBlocks :=
  match scan seed [Initialized "A" 0 "P"; NewBlock "A" "B" false] with
  | Ok s => s
  | TypeError => seed
  end.

(** A client for the examples: the chain A, B, C with a fork B' beside B,
    C best and finalized; then one tick, which collects B and A and has
    nothing to compare them with yet. *)
Definition chain : list Event :=
  [Initialized "A" 0 "P"; NewBlock "A" "B" false; NewBlock "A" "B'" false;
   NewBlock "B" "C" false; BestBlockChanged "C"; Finalized ["B"; "C"]].

Definition orStart (o : Outcome Client) : Client :=
  match o with
  | Returns c => c
  | _ => start
  end.

Definition afterTick (fuel : nat) (c : Client) : Client :=
  match tick fuel c with
  | Returns (c', _) => c'
  | _ => start
  end.

Definition tracking : Client := orStart (deliverAll start chain).

Definition tickedOnce : Client := afterTick 3 tracking.

Definition tickedTwice : Client := afterTick 3 tickedOnce.

(** After that first tick, a hold on A. *)
Definition heldBetween : Client :=
  orStart (deliverAll tickedOnce [BlockUsage Hold "A"]).

(** ** Predicates of the further properties *)

(** The hashes of [hs] that name, in [m], a block whose parent is [k]: what
    an [unpin] of [hs] takes out of the [children] of [k]. *)
Definition strippedFrom (m : gmap string PinnedBlock) (hs : list string)
    (k : string) : gset string :=
  list_to_set (filter (fun h => parent <$> m !! h = Some k) hs).

(** A hash is fresh for an accumulator when it names no tracked block and
    no tracked block names it as its parent or as its runtime: what the
    hash of a newly announced block is. *)
Definition fresh (acc : PinnedBlocks) (h : string) : bool :=
  bool_decide (blocks acc !! h = None) &&
  forallb (fun e : string * PinnedBlock =>
             negb (bool_decide (parent e.2 = h)) &&
             negb (bool_decide (runtime e.2 = h)))
          (map_to_list (blocks acc)).

(** The events a follow stream sends after its [initialized], and the usage
    events: every [newBlock] announces a fresh hash. *)
Definition admissible (acc : PinnedBlocks) (e : Event) : bool :=
  match e with
  | Initialized _ _ _ => false
  | NewBlock _ h _ => fresh acc h
  | Unpin _ => false
  | BestBlockChanged _ | Finalized _ | BlockUsage _ _ => true
  end.

(** The states of a client whose follow stream conforms: it starts with
    [initialized], for a block that is not its own parent, and goes on with
    admissible events, between ticks. *)
Inductive conforming : Client -> Prop :=
| conf_initialized h n ph c :
    h <> ph -> deliver start (Initialized h n ph) = Returns c -> conforming c
| conf_event c e c' :
    conforming c -> admissible (acc c) e = true -> deliver c e = Returns c' ->
    conforming c'
| conf_tick c fuel c' out :
    conforming c -> tick fuel c = Returns (c', out) -> conforming c'.

(** Child links and parent links say the same: the children of a tracked
    block are tracked and name it as parent, and a tracked block whose
    parent is tracked is among its children. *)
Definition childrenAgree (m : gmap string PinnedBlock) : Prop :=
  (forall p bp c, m !! p = Some bp -> c ∈ children bp ->
                  exists bc, m !! c = Some bc /\ parent bc = p) /\
  (forall c bc bp, m !! c = Some bc -> m !! parent bc = Some bp ->
                   c ∈ children bp).

(** A tracked block is one higher than its tracked parent. *)
Definition heightsStep (m : gmap string PinnedBlock) : Prop :=
  forall c bc bp, m !! c = Some bc -> m !! parent bc = Some bp ->
                  number bc = number bp + 1.

(** The runtimes of [runtimes] are those in use, each with its own Runtime
    object, which counts exactly the tracked blocks that run it. *)
Definition runtimesExact (acc : PinnedBlocks) : Prop :=
  (forall k k' l, runtimes acc !! k = Some l -> runtimes acc !! k' = Some l -> k = k') /\
  (forall x b, blocks acc !! x = Some b -> is_Some (runtimes acc !! runtime b)) /\
  (forall k l, runtimes acc !! k = Some l ->
     exists r, registry acc !! l = Some r /\
               usages r <> ∅ /\
               forall x, x ∈ usages r <->
                         exists b, blocks acc !! x = Some b /\ runtime b = k).

(** [finalized] is tracked and [finalizedRuntime] is the Runtime object of
    its runtime. *)
Definition finalizedInSync (acc : PinnedBlocks) : Prop :=
  exists bf l, blocks acc !! finalized acc = Some bf /\
               runtimes acc !! runtime bf = Some l /\
               finalizedRuntime acc = runtimeAt l.

Definition wellFormed (acc : PinnedBlocks) : Prop :=
  hashKeyed (blocks acc) /\ childrenAgree (blocks acc) /\
  heightsStep (blocks acc) /\ runtimesExact acc /\ finalizedInSync acc.

(** A run of events is admissible from a client when each event is, for
    the accumulator it is folded on, and none throws. *)
Fixpoint admissibleRun (c : Client) (events : list Event) : bool :=
  match events with
  | [] => true
  | e :: rest =>
      admissible (acc c) e &&
      match deliver c e with
      | Returns c' => admissibleRun c' rest
      | _ => false
      end
  end.

(** The client of the examples once its [initialized] is folded. *)
Definition initializedAtA : Client := orStart (deliver start (Initialized "A" 0 "P")).

(** [quietFor h c c']: the client went from [c] to [c'] by ticks and by
    external events none of which stores a node under [h] or is a usage
    event for [h]. *)
Inductive quietFor (h : string) : Client -> Client -> Prop :=
| quiet_here c : quietFor h c c
| quiet_event c e c1 c' :
    external e = true -> touches h e = false -> deliver c e = Returns c1 ->
    quietFor h c1 c' -> quietFor h c c'
| quiet_tick c fuel c1 out c' :
    tick fuel c = Returns (c1, out) -> quietFor h c1 c' -> quietFor h c c'.

(** The three properties of the block tree together. *)
Definition treeInv (m : gmap string PinnedBlock) : Prop :=
  hashKeyed m /\ childrenAgree m /\ heightsStep m.

(** The tracked block [x] runs the runtime [k]. *)
Definition runs (m : gmap string PinnedBlock) (x k : string) : Prop :=
  exists b, m !! x = Some b /\ runtime b = k.

(** The accumulator of the examples after a block D is announced under C. *)
Definition announcedD : PinnedBlocks :=
  match reduce (acc tickedOnce) (NewBlock "C" "D" false) with
  | Ok s => s
  | TypeError => seed
  end.

(** * Properties *)

(** ** The reducer on the events of the follow stream *)

Lemma reduce_initialized acc h n p :
  reduce acc (Initialized h n p) =
  Ok {| best := h; finalized := h;
        runtimes := <[h := length (registry acc)]> (runtimes acc);
        blocks := <[h := mkPinnedBlock h n p ∅ h 0]> (blocks acc);
        finalizedRuntime := runtimeAt (length (registry acc));
        registry := registry acc ++ [getRuntime h] |}.
Proof. reflexivity. Qed.

Lemma reduce_blockUsage acc v h b :
  blocks acc !! h = Some b ->
  reduce acc (BlockUsage v h) =
  Ok {| best := best acc; finalized := finalized acc; runtimes := runtimes acc;
        blocks := <[h := withRefCount b
                           (refCount b + match v with Hold => 1 | Release => -1 end)]>
                    (blocks acc);
        finalizedRuntime := finalizedRuntime acc; registry := registry acc |}.
Proof. intros Hb. simpl. rewrite Hb. reflexivity. Qed.

Lemma reduce_newBlock acc p h nr acc' :
  reduce acc (NewBlock p h nr) = Ok acc' ->
  exists pn,
    blocks acc !! p = Some pn /\
    blocks acc' =
      <[h := mkPinnedBlock h (number pn + 1) p ∅ (if nr then h else runtime pn) 0]>
        (<[p := withChildren pn (children pn ∪ {[ h ]})]> (blocks acc)) /\
    best acc' = best acc /\ finalized acc' = finalized acc /\
    finalizedRuntime acc' = finalizedRuntime acc.
Proof.
  simpl. destruct (blocks acc !! p) as [pn|]; [|discriminate].
  match goal with |- match ?x with _ => _ end = _ -> _ => destruct x end;
    [|discriminate].
  intros [= <-]. exists pn. simpl. repeat split.
Qed.

Lemma reduce_finalized acc hs acc' :
  reduce acc (Finalized hs) = Ok acc' ->
  exists f b,
    last hs = Some f /\ blocks acc !! f = Some b /\
    finalized acc' = f /\ best acc' = best acc /\ blocks acc' = blocks acc.
Proof.
  simpl. destruct (last hs) as [f|]; [|discriminate].
  destruct (blocks acc !! f) as [b|] eqn:Hf; [|discriminate].
  intros [= <-]. exists f, b. simpl. repeat split. exact Hf.
Qed.

(** C9.  From the seed, [initialized(A, number 0)], [newBlock(parent A, hash
    B, no new runtime)], [bestBlockChanged(B)], [finalized([B])], for two
    distinct hashes A and B, gives an accumulator with [finalized = best = B],
    whose blocks are exactly A and B, where A has [refCount] 0, B's number is
    A's plus one and B's runtime is A's. *)
Theorem end_to_end_scenario (A B P : string) :
  A <> B ->
  exists s a b,
    scan seed [Initialized A 0 P; NewBlock A B false; BestBlockChanged B;
               Finalized [B]] = Ok s /\
    finalized s = B /\ best s = B /\
    dom (blocks s) = {[ A; B ]} /\
    blocks s !! A = Some a /\ blocks s !! B = Some b /\
    refCount a = 0 /\ number b = number a + 1 /\ runtime b = runtime a.
Proof.
  intros HAB.
  eexists _, _, _. simpl.
  rewrite lookup_insert_eq. simpl.
  rewrite lookup_insert_eq. simpl.
  rewrite lookup_insert_eq. simpl.
  split; [reflexivity|].
  split; [reflexivity|]. split; [reflexivity|].
  cbn [blocks].
  split.
  { rewrite !dom_insert_L, dom_empty_L. set_solver. }
  split.
  { rewrite lookup_insert_ne by congruence. apply lookup_insert_eq. }
  split; [apply lookup_insert_eq|].
  simpl. auto.
Qed.

Lemma end_to_end_scenario_witness :
  exists s a b,
    scan seed [Initialized "A" 0 "P"; NewBlock "A" "B" false;
               BestBlockChanged "B"; Finalized ["B"]] = Ok s /\
    finalized s = "B" /\ best s = "B" /\
    dom (blocks s) = {[ "A"; "B" ]} /\
    blocks s !! "A" = Some a /\ blocks s !! "B" = Some b /\
    refCount a = 0 /\ number b = number a + 1 /\ runtime b = runtime a.
Proof. apply (end_to_end_scenario "A" "B" "P"). discriminate. Defined.

(** Membership in a list built with [::], by cases on the head. *)
Ltac by_membership :=
  repeat match goal with
         | H : _ ∈ _ :: _ |- _ => apply elem_of_cons in H; destruct H
         | H : _ ∈ [] |- _ => apply elem_of_nil in H; contradiction
         | H : ¬ (_ ∈ _ :: _) |- _ => apply not_elem_of_cons in H; destruct H
         end;
  solve [ congruence | tauto ].

(** ** Unpinning blocks *)

Lemma unpinBlock_lookup (m : gmap string PinnedBlock) h k :
  unpinBlock m h !! k =
  if decide (k = h) then None
  else match m !! h with
       | None => m !! k
       | Some b =>
           if decide (k = parent b)
           then (fun p => withChildren p (children p ∖ {[ h ]})) <$> m !! k
           else m !! k
       end.
Proof.
  unfold unpinBlock. destruct (m !! h) as [b|] eqn:Hh.
  - destruct (decide (k = h)) as [->|Hkh].
    + apply lookup_delete_eq.
    + rewrite lookup_delete_ne by congruence.
      destruct (decide (k = parent b)) as [->|Hkp].
      * apply lookup_alter_eq.
      * apply lookup_alter_ne. congruence.
  - destruct (decide (k = h)) as [->|Hkh]; [assumption | reflexivity].
Qed.

Lemma unpinBlock_absent (m : gmap string PinnedBlock) h :
  m !! h = None -> unpinBlock m h = m.
Proof. intros H. unfold unpinBlock. rewrite H. reflexivity. Qed.

Lemma unpinAll_absent (m : gmap string PinnedBlock) hs :
  (forall h, h ∈ hs -> m !! h = None) -> foldl unpinBlock m hs = m.
Proof.
  induction hs as [|h hs IH]; intros Habs; simpl; [reflexivity|].
  rewrite unpinBlock_absent by (apply Habs; left).
  apply IH. intros h' Hh'. apply Habs. right. exact Hh'.
Qed.

Lemma unpinAll_lookup_None (m : gmap string PinnedBlock) hs k :
  m !! k = None -> foldl unpinBlock m hs !! k = None.
Proof.
  revert m. induction hs as [|h hs IH]; intros m Hk; simpl; [exact Hk|].
  apply IH. rewrite unpinBlock_lookup.
  destruct (decide (k = h)); [reflexivity|].
  destruct (m !! h); [|exact Hk].
  destruct (decide (k = parent p)); [|exact Hk].
  rewrite Hk. reflexivity.
Qed.

Lemma unpinAll_lookup_in (m : gmap string PinnedBlock) hs k :
  k ∈ hs -> foldl unpinBlock m hs !! k = None.
Proof.
  revert m. induction hs as [|h hs IH]; intros m Hin; simpl.
  - apply elem_of_nil in Hin. contradiction.
  - destruct (decide (k = h)) as [->|Hne].
    + apply unpinAll_lookup_None. rewrite unpinBlock_lookup.
      destruct (decide (h = h)); [reflexivity | congruence].
    + apply IH. apply elem_of_cons in Hin. destruct Hin; [congruence | assumption].
Qed.

(** A block that is not named by the event stays, with at most its
    [children] changed. *)
Lemma unpinAll_lookup_keep (m : gmap string PinnedBlock) hs k b :
  k ∉ hs -> m !! k = Some b ->
  exists c, foldl unpinBlock m hs !! k = Some (withChildren b c).
Proof.
  revert m b. induction hs as [|h hs IH]; intros m b Hnin Hk; simpl.
  - exists (children b). rewrite Hk. destruct b; reflexivity.
  - apply not_elem_of_cons in Hnin as [Hne Hnin].
    assert (exists c, unpinBlock m h !! k = Some (withChildren b c)) as [c Hc].
    { rewrite unpinBlock_lookup. destruct (decide (k = h)); [congruence|].
      destruct (m !! h) as [bh|].
      - destruct (decide (k = parent bh)).
        + rewrite Hk. simpl. eauto.
        + exists (children b). rewrite Hk. destruct b; reflexivity.
      - exists (children b). rewrite Hk. destruct b; reflexivity. }
    destruct (IH _ _ Hnin Hc) as [c' Hc']. exists c'. rewrite Hc'.
    reflexivity.
Qed.

Lemma unpinAll_lookup_Some (m : gmap string PinnedBlock) hs k b' :
  foldl unpinBlock m hs !! k = Some b' ->
  (k ∉ hs) /\ exists b, m !! k = Some b /\ b' = withChildren b (children b').
Proof.
  intros H. assert (k ∉ hs) as Hnin.
  { intros Hin. rewrite unpinAll_lookup_in in H by exact Hin. discriminate. }
  split; [exact Hnin|].
  destruct (m !! k) as [b|] eqn:Hk.
  - destruct (unpinAll_lookup_keep m hs k b Hnin Hk) as [c Hc].
    rewrite Hc in H. injection H as <-. exists b. split; reflexivity.
  - rewrite unpinAll_lookup_None in H by exact Hk. discriminate.
Qed.

(** ** Sweeping the runtimes *)

Lemma deleteBlocks_idemp hs r : deleteBlocks hs (deleteBlocks hs r) = deleteBlocks hs r.
Proof.
  unfold deleteBlocks. simpl. f_equal.
  apply set_eq. intros x. rewrite !elem_of_difference. tauto.
Qed.

Lemma deleteBlocks_idemp_opt hs (o : option Runtime) :
  deleteBlocks hs <$> (deleteBlocks hs <$> o) = deleteBlocks hs <$> o.
Proof. destruct o; simpl; [rewrite deleteBlocks_idemp|]; reflexivity. Qed.

(** The Runtime objects after the calls: those listed have lost the
    hashes, the others are as before. *)
Lemma mapDeleteBlocks_registry hs es (reg : list Runtime) l :
  (mapDeleteBlocks hs es reg).2 !! l =
  if decide (l ∈ es.*2) then deleteBlocks hs <$> reg !! l else reg !! l.
Proof.
  revert reg. induction es as [|[k l0] es IH]; intros reg; simpl.
  - destruct (decide (l ∈ [])) as [Hin|]; [|reflexivity].
    apply elem_of_nil in Hin. contradiction.
  - specialize (IH (alter (deleteBlocks hs) l0 reg)).
    destruct (mapDeleteBlocks hs es (alter (deleteBlocks hs) l0 reg)) as [out reg2].
    simpl in *. rewrite IH. clear IH.
    destruct (decide (l = l0)) as [->|Hne].
    + rewrite list_lookup_alter_eq, deleteBlocks_idemp_opt.
      repeat case_decide; try reflexivity; exfalso; by_membership.
    + rewrite list_lookup_alter_ne by congruence.
      repeat case_decide; try reflexivity; exfalso; by_membership.
Qed.

(** The counts returned by the calls. *)
Lemma mapDeleteBlocks_counts hs es (reg reg0 : list Runtime) :
  (forall l, reg !! l = reg0 !! l \/ reg !! l = deleteBlocks hs <$> reg0 !! l) ->
  (mapDeleteBlocks hs es reg).1 =
  fmap (fun e : string * nat =>
          (e.1, usageCount <$> (deleteBlocks hs <$> reg0 !! e.2))) es.
Proof.
  revert reg. induction es as [|[k l0] es IH]; intros reg Hreg; simpl; [reflexivity|].
  specialize (IH (alter (deleteBlocks hs) l0 reg)).
  destruct (mapDeleteBlocks hs es (alter (deleteBlocks hs) l0 reg)) as [out reg2].
  simpl in *. f_equal.
  - f_equal. rewrite list_lookup_alter_eq.
    destruct (Hreg l0) as [-> | ->]; [reflexivity|].
    rewrite deleteBlocks_idemp_opt. reflexivity.
  - apply IH. intros l. destruct (decide (l = l0)) as [->|Hne].
    + right. rewrite list_lookup_alter_eq.
      destruct (Hreg l0) as [-> | ->]; [reflexivity|].
      apply deleteBlocks_idemp_opt.
    + rewrite list_lookup_alter_ne by congruence. apply Hreg.
Qed.

Lemma deleteKeys_lookup (m : gmap string nat) keys k :
  foldl (fun m key => delete key m) m keys !! k =
  if decide (k ∈ keys) then None else m !! k.
Proof.
  revert m. induction keys as [|key keys IH]; intros m; simpl.
  - destruct (decide (k ∈ [])) as [Hin|]; [|reflexivity].
    apply elem_of_nil in Hin. contradiction.
  - rewrite IH. destruct (decide (k = key)) as [->|Hne].
    + rewrite lookup_delete_eq.
      repeat case_decide; try reflexivity; exfalso; by_membership.
    + rewrite lookup_delete_ne by congruence.
      repeat case_decide; try reflexivity; exfalso; by_membership.
Qed.

Lemma unusedRuntimes_elem hs (rts : gmap string nat) reg k :
  k ∈ unusedRuntimes (mapDeleteBlocks hs (map_to_list rts) reg).1 <->
  exists l, rts !! k = Some l /\ countAfter hs reg l = Some 0%nat.
Proof.
  rewrite (mapDeleteBlocks_counts hs _ reg reg) by (intros; left; reflexivity).
  unfold unusedRuntimes. rewrite list_elem_of_fmap. split.
  - intros [[k' u] [-> Hin]]. apply list_elem_of_filter in Hin as [Hu Hin].
    apply list_elem_of_fmap in Hin as [[k'' l] [Heq Hin]].
    simpl in *. injection Heq as -> ->.
    apply elem_of_map_to_list in Hin. exists l. split; assumption.
  - intros [l [Hk Hu]]. exists (k, Some 0%nat). split; [reflexivity|].
    apply list_elem_of_filter. split; [reflexivity|].
    apply list_elem_of_fmap. exists (k, l). simpl. split.
    + unfold countAfter in Hu. rewrite Hu. reflexivity.
    + apply elem_of_map_to_list. exact Hk.
Qed.

Lemma reduce_unpin acc hs :
  exists acc',
    reduce acc (Unpin hs) = Ok acc' /\
    best acc' = best acc /\ finalized acc' = finalized acc /\
    finalizedRuntime acc' = finalizedRuntime acc /\
    blocks acc' = foldl unpinBlock (blocks acc) hs /\
    (forall k, runtimes acc' !! k =
               match runtimes acc !! k with
               | Some l => if decide (countAfter hs (registry acc) l = Some 0%nat)
                           then None else Some l
               | None => None
               end) /\
    (forall k l, runtimes acc !! k = Some l ->
                 registry acc' !! l = deleteBlocks hs <$> registry acc !! l) /\
    (forall l, (forall k, runtimes acc !! k <> Some l) ->
               registry acc' !! l = registry acc !! l).
Proof.
  eexists. split; [reflexivity|]. simpl.
  repeat split.
  - intros k. rewrite deleteKeys_lookup.
    destruct (decide (k ∈ _)) as [Hin|Hnin].
    + apply unusedRuntimes_elem in Hin as [l [Hk Hu]]. rewrite Hk.
      destruct (decide (countAfter hs (registry acc) l = Some 0%nat)); [reflexivity|tauto].
    + destruct (runtimes acc !! k) as [l|] eqn:Hk; [|reflexivity].
      destruct (decide (countAfter hs (registry acc) l = Some 0%nat)) as [Hu|]; [|reflexivity].
      exfalso. apply Hnin. apply unusedRuntimes_elem. eauto.
  - intros k l Hk. rewrite mapDeleteBlocks_registry.
    destruct (decide (l ∈ (map_to_list (runtimes acc)).*2)) as [Hin|Hnin];
      [reflexivity|].
    exfalso. apply Hnin. apply list_elem_of_fmap.
    exists (k, l). split; [reflexivity|]. apply elem_of_map_to_list. exact Hk.
  - intros l Hl. rewrite mapDeleteBlocks_registry.
    destruct (decide (l ∈ (map_to_list (runtimes acc)).*2)) as [Hin|Hnin];
      [|reflexivity].
    exfalso. apply list_elem_of_fmap in Hin as [[k l'] [-> Hin]].
    apply elem_of_map_to_list in Hin. exact (Hl k Hin).
Qed.

Lemma referenced_dec (m : gmap string nat) l :
  (exists k, m !! k = Some l) \/ (forall k, m !! k <> Some l).
Proof.
  destruct (decide (l ∈ (map_to_list m).*2)) as [Hin|Hnin].
  - left. apply list_elem_of_fmap in Hin as [[k l'] [-> Hin]].
    apply elem_of_map_to_list in Hin. eauto.
  - right. intros k Hk. apply Hnin. apply list_elem_of_fmap.
    exists (k, l). split; [reflexivity|]. apply elem_of_map_to_list. exact Hk.
Qed.

Lemma countAfter_deleted hs (reg reg' : list Runtime) l :
  reg' !! l = deleteBlocks hs <$> reg !! l ->
  countAfter hs reg' l = countAfter hs reg l.
Proof.
  intros H. unfold countAfter. rewrite H, deleteBlocks_idemp_opt. reflexivity.
Qed.

(** Folding the same [unpin] event a second time changes nothing. *)
Lemma unpin_twice acc hs acc1 :
  reduce acc (Unpin hs) = Ok acc1 -> reduce acc1 (Unpin hs) = Ok acc1.
Proof.
  intros H1.
  destruct (reduce_unpin acc hs) as (a1 & E1 & Hb1 & Hf1 & Hr1 & Hbl1 & Hrt1 & Hin1 & Hout1).
  rewrite E1 in H1. injection H1 as ->.
  destruct (reduce_unpin acc1 hs) as (acc2 & E2 & Hb2 & Hf2 & Hr2 & Hbl2 & Hrt2 & Hin2 & Hout2).
  rewrite E2. f_equal.
  assert (forall k l, runtimes acc1 !! k = Some l ->
            runtimes acc !! k = Some l /\
            countAfter hs (registry acc) l <> Some 0%nat) as Hsurv.
  { intros k l Hk. rewrite Hrt1 in Hk.
    destruct (runtimes acc !! k) as [l'|]; [|discriminate].
    destruct (decide (countAfter hs (registry acc) l' = Some 0%nat)); [discriminate|].
    injection Hk as ->. split; [reflexivity | assumption]. }
  assert (blocks acc2 = blocks acc1) as Eblocks.
  { rewrite Hbl2. apply unpinAll_absent. intros h Hh.
    rewrite Hbl1. apply unpinAll_lookup_in. exact Hh. }
  assert (registry acc2 = registry acc1) as Eregistry.
  { apply list_eq. intros l.
    destruct (referenced_dec (runtimes acc1) l) as [[k Hk]|Hno].
    - rewrite (Hin2 k l Hk).
      destruct (Hsurv k l Hk) as [Hk0 _].
      rewrite (Hin1 k l Hk0). apply deleteBlocks_idemp_opt.
    - apply Hout2. exact Hno. }
  assert (runtimes acc2 = runtimes acc1) as Eruntimes.
  { apply map_eq. intros k. rewrite Hrt2.
    destruct (runtimes acc1 !! k) as [l|] eqn:Hk; [|reflexivity].
    destruct (Hsurv k l Hk) as [Hk0 Hcount].
    rewrite (countAfter_deleted hs (registry acc) (registry acc1) l (Hin1 k l Hk0)).
    destruct (decide (countAfter hs (registry acc) l = Some 0%nat)); [tauto|reflexivity]. }
  destruct acc1, acc2. simpl in *. congruence.
Qed.

(** C3.  Unpin is idempotent: for every accumulator and every hash [h], the
    fold of [unpin([h])] succeeds, and folding [unpin([h])] again on its
    result gives this same result: same blocks with the same children sets,
    same runtimes, same Runtime objects with the same usages, same pointers. *)
Theorem unpin_idempotent acc h :
  exists acc1,
    reduce acc (Unpin [h]) = Ok acc1 /\
    blocks acc1 !! h = None /\
    reduce acc1 (Unpin [h]) = Ok acc1.
Proof.
  destruct (reduce_unpin acc [h]) as (acc1 & E1 & _ & _ & _ & Hbl1 & _).
  exists acc1. split; [exact E1|]. split.
  - rewrite Hbl1. apply unpinAll_lookup_in. left.
  - apply (unpin_twice acc [h]). exact E1.
Qed.

(** ** Holds and releases *)

Lemma reduce_nonNegative acc e acc' :
  nonNegative (blocks acc) -> matched acc e = true ->
  reduce acc e = Ok acc' -> nonNegative (blocks acc').
Proof.
  intros Hnn Hm Hred. destruct e as [h n p|p h nr|h|hs|v h|hs];
    [simpl in Hred| |simpl in Hred..].
  - injection Hred as <-. intros k b. simpl.
    destruct (decide (k = h)) as [->|Hne].
    + rewrite lookup_insert_eq. intros [= <-]. simpl. lia.
    + rewrite lookup_insert_ne by congruence. apply Hnn.
  - apply reduce_newBlock in Hred as (pn & Hp & -> & _).
    intros k b.
    destruct (decide (k = h)) as [->|Hne].
    + rewrite lookup_insert_eq. intros [= <-]. simpl. lia.
    + rewrite lookup_insert_ne by congruence.
      destruct (decide (k = p)) as [->|Hne'].
      * rewrite lookup_insert_eq. intros [= <-]. simpl. exact (Hnn _ _ Hp).
      * rewrite lookup_insert_ne by congruence. apply Hnn.
  - injection Hred as <-. exact Hnn.
  - apply reduce_finalized in Hred as (f & b & _ & _ & _ & _ & Hbl).
    rewrite Hbl. exact Hnn.
  - destruct (blocks acc !! h) as [b0|] eqn:Hh; [|discriminate].
    injection Hred as <-. intros k b. simpl.
    destruct (decide (k = h)) as [->|Hne].
    + rewrite lookup_insert_eq. intros [= <-]. simpl.
      pose proof (Hnn _ _ Hh). destruct v; [lia|].
      simpl in Hm. rewrite Hh in Hm. apply bool_decide_eq_true in Hm. lia.
    + rewrite lookup_insert_ne by congruence. apply Hnn.
  - injection Hred as <-. intros k b. simpl. intros Hk.
    apply unpinAll_lookup_Some in Hk as [_ [b0 [Hk0 ->]]].
    simpl. exact (Hnn _ _ Hk0).
Qed.

Lemma scan_nonNegative events : forall acc acc',
  nonNegative (blocks acc) -> balanced acc events = true ->
  scan acc events = Ok acc' -> nonNegative (blocks acc').
Proof.
  induction events as [|e rest IH]; intros acc acc' Hnn Hbal Hscan; simpl in *.
  - injection Hscan as <-. exact Hnn.
  - apply andb_true_iff in Hbal as [Hm Hbal].
    destruct (reduce acc e) as [acc1|] eqn:Hred; [|discriminate].
    apply (IH acc1); [|assumption..].
    exact (reduce_nonNegative acc e acc1 Hnn Hm Hred).
Qed.

Lemma balanced_prefix pre post : forall acc,
  balanced acc (pre ++ post) = true -> balanced acc pre = true.
Proof.
  induction pre as [|e pre IH]; intros acc Hbal; simpl in *; [reflexivity|].
  apply andb_true_iff in Hbal as [Hm Hbal]. rewrite Hm. simpl.
  destruct (reduce acc e) as [acc1|]; [|reflexivity].
  exact (IH acc1 Hbal).
Qed.

Lemma nonNegative_seed : nonNegative (blocks seed).
Proof. intros k b Hk. simpl in Hk. rewrite lookup_empty in Hk. discriminate. Qed.

(** C1, as the reducer behaves.  A release is never rejected: on every
    accumulator, whatever it holds, the fold of [release] for a tracked
    block succeeds and takes one from its [refCount], whatever its value
    (from 0 it goes to -1, from -1 to -2), leaving the other blocks and the
    rest of the accumulator as they are.  The counters stay at or above
    zero, after every prefix, along the sequences that start on an
    accumulator with no negative counter and in which each release is
    folded on a block whose [refCount] is positive at that moment. *)
Theorem release_is_unchecked :
  (forall acc h b,
     blocks acc !! h = Some b ->
     reduce acc (BlockUsage Release h) =
     Ok {| best := best acc; finalized := finalized acc;
           runtimes := runtimes acc;
           blocks := <[h := withRefCount b (refCount b - 1)]> (blocks acc);
           finalizedRuntime := finalizedRuntime acc;
           registry := registry acc |}) /\
  (forall acc events,
     nonNegative (blocks acc) -> balanced acc events = true ->
     forall pre post acc1,
       events = pre ++ post -> scan acc pre = Ok acc1 ->
       nonNegative (blocks acc1)).
Proof.
  split.
  - intros acc h b Hb. rewrite (reduce_blockUsage acc Release h b Hb). reflexivity.
  - intros acc events Hnn Hbal pre post acc1 -> Hscan.
    apply (scan_nonNegative pre acc acc1 Hnn); [|exact Hscan].
    exact (balanced_prefix pre post acc Hbal).
Qed.

Lemma release_is_unchecked_witness :
  (exists acc1 b1,
     scan seed [Initialized "A" 0 "P"; BlockUsage Release "A"] = Ok acc1 /\
     blocks acc1 !! "A" = Some b1 /\ refCount b1 = -1 /\
     reduce acc1 (BlockUsage Release "A") =
     Ok {| best := best acc1; finalized := finalized acc1;
           runtimes := runtimes acc1;
           blocks := <["A" := withRefCount b1 (-2)]> (blocks acc1);
           finalizedRuntime := finalizedRuntime acc1;
           registry := registry acc1 |}) /\
  (exists acc1,
     scan seed [Initialized "A" 0 "P"; BlockUsage Hold "A"; BlockUsage Release "A"]
       = Ok acc1 /\
     nonNegative (blocks acc1)).
Proof.
  split.
  - eexists _, _. split; [reflexivity|].
    split; [vm_compute; reflexivity|].
    split; [reflexivity|].
    refine (proj1 release_is_unchecked _ "A" _ _).
    vm_compute. reflexivity.
  - eexists. split; [reflexivity|].
    refine (proj2 release_is_unchecked seed
              [Initialized "A" 0 "P"; BlockUsage Hold "A"; BlockUsage Release "A";
               BlockUsage Hold "A"]
              nonNegative_seed _
              [Initialized "A" 0 "P"; BlockUsage Hold "A"; BlockUsage Release "A"]
              [BlockUsage Hold "A"] _ _ _).
    + vm_compute. reflexivity.
    + reflexivity.
    + reflexivity.
Defined.

(** C1, as stated, fails: after [initialized(A)] the block A has [refCount]
    0; the fold of [release(A)] is not rejected, it returns an accumulator
    in which A's [refCount] is -1. *)
Lemma release_at_zero_goes_negative :
  exists acc0 b0 acc1 b1,
    reduce seed (Initialized "A" 0 "P") = Ok acc0 /\
    blocks acc0 !! "A" = Some b0 /\ refCount b0 = 0 /\
    reduce acc0 (BlockUsage Release "A") = Ok acc1 /\
    blocks acc1 !! "A" = Some b1 /\ refCount b1 = -1 /\
    acc1 <> acc0.
Proof.
  eexists _, _, _, _.
  split; [reflexivity|].
  split; [vm_compute; reflexivity|].
  split; [reflexivity|].
  split; [vm_compute; reflexivity|].
  split; [vm_compute; reflexivity|].
  split; [reflexivity|].
  intros Heq. apply (f_equal (fun a => refCount <$> blocks a !! "A")) in Heq.
  vm_compute in Heq. discriminate.
Qed.

(** The condition is on the accumulator, not on the holds sent before: a
    block that is announced again has its [refCount] back at 0, and the
    release of a hold taken before goes to -1. *)
Lemma holds_are_lost_on_reannounce :
  exists acc1 b1,
    scan seed [Initialized "A" 0 "P"; NewBlock "A" "B" false; BlockUsage Hold "B";
               NewBlock "A" "B" false; BlockUsage Release "B"] = Ok acc1 /\
    blocks acc1 !! "B" = Some b1 /\ refCount b1 = -1 /\
    balanced seed [Initialized "A" 0 "P"; NewBlock "A" "B" false;
                   BlockUsage Hold "B"; NewBlock "A" "B" false;
                   BlockUsage Release "B"] = false.
Proof.
  eexists _, _.
  split; [vm_compute; reflexivity|].
  split; [vm_compute; reflexivity|].
  split; [reflexivity|].
  vm_compute. reflexivity.
Qed.

(** ** A second [initialized] *)

(** C5, as the reducer behaves.  The [initialized] case has no guard: on
    every accumulator, initialized before or not, the fold succeeds; it
    points [best] and [finalized] at the hash, stores a fresh root node and a
    fresh Runtime object under it, and keeps every other tracked block and
    runtime. *)
Theorem initialized_never_fails acc h n p :
  exists acc',
    reduce acc (Initialized h n p) = Ok acc' /\
    best acc' = h /\ finalized acc' = h /\
    blocks acc' !! h = Some (mkPinnedBlock h n p ∅ h 0) /\
    (forall k, k <> h -> blocks acc' !! k = blocks acc !! k) /\
    (forall k, k <> h -> runtimes acc' !! k = runtimes acc !! k) /\
    (exists l, runtimes acc' !! h = Some l /\ finalizedRuntime acc' = runtimeAt l /\
               registry acc' !! l = Some (getRuntime h) /\
               registry acc !! l = None) /\
    (forall l r, registry acc !! l = Some r -> registry acc' !! l = Some r).
Proof.
  eexists. split; [apply reduce_initialized|]. simpl.
  split; [reflexivity|]. split; [reflexivity|].
  split; [apply lookup_insert_eq|].
  split; [intros k Hk; apply lookup_insert_ne; congruence|].
  split; [intros k Hk; apply lookup_insert_ne; congruence|].
  split.
  - exists (length (registry acc)). split; [apply lookup_insert_eq|].
    split; [reflexivity|]. split.
    + rewrite lookup_app_r by lia. rewrite Nat.sub_diag. reflexivity.
    + apply lookup_ge_None. lia.
  - intros l r Hl. apply lookup_app_l_Some. exact Hl.
Qed.

(** C5, as stated, fails: a second [initialized] is folded without any
    error, and the block and runtime of the first one stay tracked next to
    those of the second. *)
Lemma second_initialized_is_merged :
  exists acc1 acc2,
    reduce seed (Initialized "A" 0 "P") = Ok acc1 /\
    reduce acc1 (Initialized "B" 7 "Q") = Ok acc2 /\
    finalized acc2 = "B" /\ best acc2 = "B" /\
    dom (blocks acc2) = {[ "A"; "B" ]} /\
    dom (runtimes acc2) = {[ "A"; "B" ]}.
Proof.
  eexists _, _.
  split; [reflexivity|]. split; [reflexivity|].
  split; [reflexivity|]. split; [reflexivity|].
  simpl. rewrite !dom_insert_L, !dom_empty_L.
  split; set_solver.
Qed.

(** ** The ancestry walk *)

Section Walk.
Context (blocks : gmap string PinnedBlock).

Implicit Types (k p a : string) (current next : PinnedBlock).
Implicit Types (result r : list string) (fuel : nat).

Lemma parentOf_tracked_l k p : parentOf blocks k p -> is_Some (blocks !! k).
Proof. intros (b & Hb & _). eauto. Qed.

Lemma parentOf_tracked_r k p : parentOf blocks k p -> is_Some (blocks !! p).
Proof. intros (b & _ & _ & Hp). exact Hp. Qed.

Lemma chain_tracked k a :
  rtc (parentOf blocks) k a -> is_Some (blocks !! a) -> is_Some (blocks !! k).
Proof.
  intros H Ha. destruct H as [|? ? ? H _]; [exact Ha|].
  exact (parentOf_tracked_l _ _ H).
Qed.

(** The parent link out of a tracked node whose parent is tracked. *)
Lemma parentOf_intro k current next :
  blocks !! k = Some current -> blocks !! parent current = Some next ->
  parentOf blocks k (parent current).
Proof. intros Hk Hn. exists current. eauto. Qed.

Lemma setAdd_elem result x y : y ∈ setAdd result x <-> y ∈ result \/ y = x.
Proof.
  unfold setAdd. destruct (decide (x ∈ result)) as [Hin|Hnin].
  - split; [auto|]. intros [H| ->]; assumption.
  - rewrite elem_of_app, list_elem_of_singleton. reflexivity.
Qed.

Lemma walk_more_fuel : forall n m current result r,
  (n <= m)%nat -> walk n blocks current result = Some r ->
  walk m blocks current result = Some r.
Proof.
  induction n as [|n IH]; intros m current result r Hle Hw; [discriminate|].
  destruct m as [|m]; [lia|]. simpl in *.
  destruct (blocks !! parent current) as [next|]; [|exact Hw].
  apply (IH m); [lia | exact Hw].
Qed.

(** What the loop adds to [result]: hashes of nodes with [refCount] 0 that
    are met from [current]'s parent on, along parent links. *)
Lemma walk_sound : forall fuel current result r,
  walk fuel blocks current result = Some r ->
  forall h, h ∈ r ->
    h ∈ result \/
    exists a node, rtc (parentOf blocks) (parent current) a /\
                   blocks !! a = Some node /\ hash node = h /\
                   refCount node = 0.
Proof.
  induction fuel as [|fuel IH]; intros current result r Hw h Hh; [discriminate|].
  simpl in Hw. destruct (blocks !! parent current) as [next|] eqn:Hnext.
  - destruct (IH _ _ _ Hw h Hh) as [Hres | (a & node & Hrtc & Ha & Hhash & Hrc)].
    + destruct (decide (refCount next = 0)) as [Hz|]; [|left; exact Hres].
      apply setAdd_elem in Hres as [Hres| ->]; [left; exact Hres|].
      right. exists (parent current), next. split; [apply rtc_refl|]. tauto.
    + right. exists a, node. split; [|tauto].
      apply rtc_l with (parent next); [|exact Hrtc].
      exists next. split; [exact Hnext|]. split; [reflexivity|].
      apply (chain_tracked _ a Hrtc). eauto.
  - injection Hw as <-. left. exact Hh.
Qed.

(** The loop keeps what [result] already holds. *)
Lemma walk_keeps : forall fuel current result r,
  walk fuel blocks current result = Some r -> forall h, h ∈ result -> h ∈ r.
Proof.
  induction fuel as [|fuel IH]; intros current result r Hw h Hh; [discriminate|].
  simpl in Hw. destruct (blocks !! parent current) as [next|].
  - apply (IH _ _ _ Hw). destruct (decide (refCount next = 0)); [|exact Hh].
    apply setAdd_elem. left. exact Hh.
  - injection Hw as <-. exact Hh.
Qed.

(** Every node with [refCount] 0 on the chain is added. *)
Lemma walk_complete : forall fuel current result r,
  walk fuel blocks current result = Some r ->
  forall a node, rtc (parentOf blocks) (parent current) a ->
                 blocks !! a = Some node -> refCount node = 0 ->
                 hash node ∈ r.
Proof.
  induction fuel as [|fuel IH]; intros current result r Hw a node Hrtc Ha Hz;
    [discriminate|].
  simpl in Hw.
  assert (is_Some (blocks !! parent current)) as [next Hnext]
    by (apply (chain_tracked _ a Hrtc); eauto).
  rewrite Hnext in Hw.
  apply rtc_inv in Hrtc as [<- | (y & Hstep & Hrtc)].
  - assert (next = node) as -> by congruence.
    apply (walk_keeps _ _ _ _ Hw).
    destruct (decide (refCount node = 0)); [|contradiction].
    apply setAdd_elem. right. reflexivity.
  - apply (IH _ _ _ Hw a node); [|assumption..].
    destruct Hstep as (b & Hb & <- & _).
    assert (b = next) as -> by congruence. exact Hrtc.
Qed.

(** On a cycle of parent links the loop does not end. *)
Lemma walk_on_cycle : forall fuel k current result,
  ancestorOf blocks k k -> blocks !! k = Some current ->
  walk fuel blocks current result = None.
Proof.
  induction fuel as [|fuel IH]; intros k current result Hcyc Hb; [reflexivity|].
  simpl.
  assert (exists y, parentOf blocks k y /\ ancestorOf blocks y y) as (y & Hstep & Hy).
  { inversion Hcyc as [? ? Hs|? y ? Hs Hrest]; subst.
    - exists k. split; [exact Hs | exact Hcyc].
    - exists y. split; [exact Hs|]. apply tc_r with k; assumption. }
  destruct Hstep as (b' & Hb' & <- & [next Hnext]).
  assert (b' = current) as -> by congruence.
  rewrite Hnext. apply (IH (parent current)); assumption.
Qed.

(** A cycle further up the chain is reached, and then the loop does not
    end either. *)
Lemma walk_into_cycle : forall k a,
  rtc (parentOf blocks) k a -> ancestorOf blocks a a ->
  forall fuel current result,
    blocks !! k = Some current -> walk fuel blocks current result = None.
Proof.
  intros k a Hrtc.
  induction Hrtc as [k|k y a Hstep Hrtc IH]; intros Hcyc fuel current result Hb.
  - apply (walk_on_cycle fuel k); assumption.
  - destruct fuel as [|fuel]; [reflexivity|]. simpl.
    destruct Hstep as (b' & Hb' & <- & [next Hnext]).
    assert (b' = current) as -> by congruence.
    rewrite Hnext. apply IH; assumption.
Qed.

(** Without a cycle the loop ends before it has taken more turns than
    there are blocks: [V] holds the blocks it has left behind. *)
Lemma walk_terminates F :
  acyclicFrom blocks F ->
  forall n (V : gset string) k current result,
    (size (dom blocks ∖ V) < n)%nat ->
    blocks !! k = Some current -> rtc (parentOf blocks) F k -> k ∉ V ->
    (forall v, v ∈ V -> rtc (parentOf blocks) F v /\ ancestorOf blocks v k) ->
    exists r, walk n blocks current result = Some r.
Proof.
  intros Hacyc.
  induction n as [|n IH]; intros V k current result Hsize Hb HFk HkV HV; [lia|].
  simpl. destruct (blocks !! parent current) as [next|] eqn:Hnext; [|eauto].
  pose proof (parentOf_intro _ _ _ Hb Hnext) as Hstep.
  apply (IH (V ∪ {[ k ]}) (parent current)).
  - assert (dom blocks ∖ (V ∪ {[ k ]}) ⊂ dom blocks ∖ V) as Hsub.
    { assert (k ∈ dom blocks) by (apply elem_of_dom; eauto). set_solver. }
    apply subset_size in Hsub. lia.
  - exact Hnext.
  - apply rtc_r with k; assumption.
  - intros Hin. apply elem_of_union in Hin as [Hin|Hin].
    + destruct (HV _ Hin) as [HFv Hvk].
      apply (Hacyc _ HFv). apply tc_r with k; assumption.
    + apply elem_of_singleton in Hin. apply (Hacyc _ HFk).
      apply tc_once. rewrite <- Hin at 2. exact Hstep.
  - intros v Hin. apply elem_of_union in Hin as [Hin|Hin].
    + destruct (HV _ Hin) as [HFv Hvk]. split; [exact HFv|].
      apply tc_r with k; assumption.
    + apply elem_of_singleton in Hin as ->. split; [exact HFk|].
      apply tc_once. exact Hstep.
Qed.

End Walk.

Lemma collect_more_fuel n m pinned r :
  (n <= m)%nat -> collect n pinned = Returns r -> collect m pinned = Returns r.
Proof.
  unfold collect. intros Hle. destruct (blocks pinned !! finalized pinned); [|discriminate].
  destruct (walk n _ _ _) as [r'|] eqn:Hw; [|discriminate].
  intros [= <-]. rewrite (walk_more_fuel _ _ _ _ _ _ Hle Hw). reflexivity.
Qed.

(** What [collect] returns: hashes of strict ancestors of [finalized] whose
    [refCount] is 0. *)
Lemma collect_sound fuel pinned r h :
  collect fuel pinned = Returns r -> h ∈ r ->
  exists a node, ancestorOf (blocks pinned) (finalized pinned) a /\
                 blocks pinned !! a = Some node /\ hash node = h /\
                 refCount node = 0.
Proof.
  unfold collect. destruct (blocks pinned !! finalized pinned) as [cur|] eqn:HF;
    [|discriminate].
  destruct (walk fuel _ _ _) as [r'|] eqn:Hw; [|discriminate].
  intros [= <-] Hh.
  destruct (walk_sound _ _ _ _ _ Hw h Hh) as [Hnil | (a & node & Hrtc & Ha & Hhash & Hz)].
  - apply elem_of_nil in Hnil. contradiction.
  - exists a, node. split; [|tauto].
    apply tc_rtc_r with (parent cur); [|exact Hrtc].
    apply tc_once. exists cur. split; [exact HF|]. split; [reflexivity|].
    apply (chain_tracked _ _ a Hrtc). eauto.
Qed.

Lemma collect_complete fuel pinned r a node :
  collect fuel pinned = Returns r ->
  ancestorOf (blocks pinned) (finalized pinned) a ->
  blocks pinned !! a = Some node -> refCount node = 0 -> hash node ∈ r.
Proof.
  unfold collect. destruct (blocks pinned !! finalized pinned) as [cur|] eqn:HF;
    [|discriminate].
  destruct (walk fuel _ _ _) as [r'|] eqn:Hw; [|discriminate].
  intros [= <-] Hanc Ha Hz.
  apply (walk_complete _ _ _ _ _ Hw a node); [|assumption..].
  inversion Hanc as [? ? Hstep|? y ? Hstep Hrest]; subst.
  - destruct Hstep as (b & Hb & <- & _). assert (b = cur) as -> by congruence.
    apply rtc_refl.
  - destruct Hstep as (b & Hb & <- & _). assert (b = cur) as -> by congruence.
    apply tc_rtc. exact Hrest.
Qed.

(** With nodes stored under their hashes, [collect] returns the idle
    ancestors, all of them. *)
Lemma collect_elem fuel pinned r h :
  hashKeyed (blocks pinned) -> collect fuel pinned = Returns r ->
  h ∈ r <-> idleAncestor pinned h.
Proof.
  intros Hk Hc. split.
  - intros Hh. destruct (collect_sound _ _ _ _ Hc Hh) as (a & node & Hanc & Ha & Hhash & Hz).
    assert (a = h) as -> by (rewrite <- Hhash; symmetry; exact (Hk _ _ Ha)).
    split; [exact Hanc | eauto].
  - intros (Hanc & b & Hb & Hz). rewrite <- (Hk _ _ Hb).
    exact (collect_complete _ _ _ _ _ Hc Hanc Hb Hz).
Qed.

Lemma collect_throws_iff fuel pinned :
  collect fuel pinned = Throws <-> blocks pinned !! finalized pinned = None.
Proof.
  unfold collect. destruct (blocks pinned !! finalized pinned) as [cur|].
  - destruct (walk fuel _ _ _); split; discriminate.
  - split; reflexivity.
Qed.

(** When the loop ends, [finalized] lies on no cycle: no block is both met
    by the walk and a descendant of [finalized]. *)
Lemma collect_acyclic fuel pinned r :
  collect fuel pinned = Returns r ->
  acyclicFrom (blocks pinned) (finalized pinned).
Proof.
  unfold collect. destruct (blocks pinned !! finalized pinned) as [cur|] eqn:HF;
    [|discriminate].
  destruct (walk fuel _ _ _) as [r'|] eqn:Hw; [|discriminate].
  intros _ a Hrtc Hcyc.
  rewrite (walk_into_cycle _ _ a Hrtc Hcyc fuel cur [] HF) in Hw. discriminate.
Qed.

Lemma collect_terminates pinned :
  is_Some (blocks pinned !! finalized pinned) ->
  acyclicFrom (blocks pinned) (finalized pinned) ->
  exists r, collect (S (size (dom (blocks pinned)))) pinned = Returns r.
Proof.
  intros [cur HF] Hacyc. unfold collect. rewrite HF.
  destruct (walk_terminates _ _ Hacyc (S (size (dom (blocks pinned)))) ∅
              (finalized pinned) cur []) as [r Hr].
  - assert (dom (blocks pinned) ∖ ∅ = dom (blocks pinned)) as -> by set_solver. lia.
  - exact HF.
  - apply rtc_refl.
  - set_solver.
  - set_solver.
  - exists r. rewrite Hr. reflexivity.
Qed.

(** Where the loop ends: at a block, reached from the one it started on,
    whose parent is not tracked. *)
Lemma walk_stops (blocks : gmap string PinnedBlock) : forall fuel k current result r,
  blocks !! k = Some current -> walk fuel blocks current result = Some r ->
  exists top t, rtc (parentOf blocks) k top /\ blocks !! top = Some t /\
                blocks !! parent t = None.
Proof.
  induction fuel as [|fuel IH]; intros k current result r Hk Hw; [discriminate|].
  simpl in Hw. destruct (blocks !! parent current) as [next|] eqn:Hnext.
  - destruct (IH _ _ _ _ Hnext Hw) as (top & t & Hrtc & Ht & Hend).
    exists top, t. split; [|tauto].
    apply rtc_l with (parent current); [|exact Hrtc].
    exact (parentOf_intro _ _ _ _ Hk Hnext).
  - exists k, current. split; [apply rtc_refl|]. tauto.
Qed.

(** The parent links form one chain: every block met from [k] lies at or
    below the block at which the chain ends. *)
Lemma chain_below_top (blocks : gmap string PinnedBlock) top t :
  blocks !! top = Some t -> blocks !! parent t = None ->
  forall k a, rtc (parentOf blocks) k a -> rtc (parentOf blocks) k top ->
              rtc (parentOf blocks) a top.
Proof.
  intros Ht Hend k a Hka.
  induction Hka as [k|k y a Hstep Hya IH]; intros Hktop; [exact Hktop|].
  apply IH. destruct Hstep as (b & Hb & Hpar & [p Hp]).
  apply rtc_inv in Hktop as [-> | (y' & (b' & Hb' & Hpar' & _) & Hrest)].
  - assert (b = t) as -> by congruence. congruence.
  - assert (b' = b) as -> by congruence. congruence.
Qed.

(** C8, as the cleaner behaves.  An error is raised exactly on the snapshots
    whose [finalized] block is absent from [blocks]: there the walk throws a
    [TypeError].  On every snapshot whose [finalized] block is tracked and
    from which the parent links run into no cycle, the walk ends without an
    error, given enough turns.  It stops at [top], the first block on the
    chain of parent links from [finalized] whose parent is absent from
    [blocks]: every strict ancestor of [finalized] lies at or below [top],
    and what the walk has collected then are the hashes of the tracked
    strict ancestors of [finalized] with [refCount] 0, all of them and
    nothing else. *)
Theorem walk_ends_below_tracked_finalized pinned :
  (forall fuel,
     collect fuel pinned = Throws <-> blocks pinned !! finalized pinned = None) /\
  (is_Some (blocks pinned !! finalized pinned) ->
   acyclicFrom (blocks pinned) (finalized pinned) ->
   exists fuel r top t,
     (forall fuel', (fuel <= fuel')%nat -> collect fuel' pinned = Returns r) /\
     rtc (parentOf (blocks pinned)) (finalized pinned) top /\
     blocks pinned !! top = Some t /\
     blocks pinned !! parent t = None /\
     (forall a, ancestorOf (blocks pinned) (finalized pinned) a ->
                rtc (parentOf (blocks pinned)) a top) /\
     (forall h, h ∈ r <->
        exists a node, ancestorOf (blocks pinned) (finalized pinned) a /\
                       blocks pinned !! a = Some node /\ hash node = h /\
                       refCount node = 0)).
Proof.
  split; [intros fuel; apply collect_throws_iff|].
  intros HF Hacyc.
  destruct (collect_terminates pinned HF Hacyc) as [r Hr].
  assert (exists top t,
            rtc (parentOf (blocks pinned)) (finalized pinned) top /\
            blocks pinned !! top = Some t /\ blocks pinned !! parent t = None)
    as (top & t & Hrtc & Ht & Hend).
  { destruct HF as [cur Hcur]. unfold collect in Hr. rewrite Hcur in Hr.
    destruct (walk _ _ _ _) as [r'|] eqn:Hw; [|discriminate].
    exact (walk_stops _ _ _ _ _ _ Hcur Hw). }
  exists (S (size (dom (blocks pinned)))), r, top, t.
  split; [intros fuel' Hle; exact (collect_more_fuel _ _ _ _ Hle Hr)|].
  split; [exact Hrtc|]. split; [exact Ht|]. split; [exact Hend|]. split.
  - intros a Hanc.
    apply (chain_below_top _ _ _ Ht Hend (finalized pinned)); [|exact Hrtc].
    apply tc_rtc. exact Hanc.
  - intros h. split.
    + intros Hh. exact (collect_sound _ _ _ _ Hr Hh).
    + intros (a & node & Hanc & Ha & <- & Hz).
      exact (collect_complete _ _ _ _ _ Hr Hanc Ha Hz).
Qed.

Lemma walk_ends_below_tracked_finalized_witness :
  exists fuel r top t,
    (forall fuel', (fuel <= fuel')%nat -> collect fuel' twoBlocks = Returns r) /\
    rtc (parentOf (blocks twoBlocks)) (finalized twoBlocks) top /\
    blocks twoBlocks !! top = Some t /\
    blocks twoBlocks !! parent t = None /\
    (forall a, ancestorOf (blocks twoBlocks) (finalized twoBlocks) a ->
               rtc (parentOf (blocks twoBlocks)) a top) /\
    (forall h, h ∈ r <->
       exists a node, ancestorOf (blocks twoBlocks) (finalized twoBlocks) a /\
                      blocks twoBlocks !! a = Some node /\ hash node = h /\
                      refCount node = 0).
Proof.
  apply (proj2 (walk_ends_below_tracked_finalized twoBlocks)).
  - vm_compute. eauto.
  - apply (collect_acyclic 2 twoBlocks ["A"]). vm_compute. reflexivity.
Defined.

(** C8, as stated, fails when [finalized] itself is absent: a store that
    was sent [bestBlockChanged] first publishes a snapshot whose [finalized]
    is not in [blocks], and on it the walk throws. *)
Lemma walk_throws_when_finalized_absent :
  reduce seed (BestBlockChanged "B") = Ok uninitialized /\
  blocks uninitialized !! finalized uninitialized = None /\
  forall fuel, collect fuel (read (publish uninitialized) uninitialized) = Throws.
Proof.
  split; [reflexivity|]. split; [reflexivity|]. intros fuel. reflexivity.
Qed.

(** Nor does the walk end on every snapshot: when the finalized block is
    announced as its own parent, the loop never leaves it. *)
Lemma walk_spins_on_own_parent fuel :
  exists s, reduce seed (Initialized "A" 0 "A") = Ok s /\
            collect fuel s = OutOfFuel.
Proof.
  eexists. split; [reflexivity|].
  unfold collect. simpl. rewrite lookup_insert_eq.
  rewrite (walk_on_cycle _ fuel "A" _ []); [reflexivity| |apply lookup_insert_eq].
  apply tc_once. eexists. split; [apply lookup_insert_eq|].
  split; [reflexivity|]. rewrite lookup_insert_eq. eauto.
Qed.

(** ** Invariants of the client *)

Lemma read_publish a : read (publish a) a = a.
Proof. destruct a; reflexivity. Qed.

Lemma hashKeyed_insert (m : gmap string PinnedBlock) k b :
  hashKeyed m -> hash b = k -> hashKeyed (<[k := b]> m).
Proof.
  intros Hm Hb k' b'. destruct (decide (k' = k)) as [->|Hne].
  - rewrite lookup_insert_eq. intros [= <-]. exact Hb.
  - rewrite lookup_insert_ne by congruence. apply Hm.
Qed.

Lemma reduce_hashKeyed acc e acc' :
  hashKeyed (blocks acc) -> reduce acc e = Ok acc' -> hashKeyed (blocks acc').
Proof.
  intros Hk Hred. destruct e as [h n p|p h nr|h|hs|v h|hs];
    [simpl in Hred| |simpl in Hred..].
  - injection Hred as <-. simpl. apply hashKeyed_insert; [exact Hk | reflexivity].
  - apply reduce_newBlock in Hred as (pn & Hp & -> & _).
    apply hashKeyed_insert; [|reflexivity].
    apply hashKeyed_insert; [exact Hk|]. simpl. exact (Hk _ _ Hp).
  - injection Hred as <-. exact Hk.
  - apply reduce_finalized in Hred as (f & b & _ & _ & _ & _ & Hbl).
    rewrite Hbl. exact Hk.
  - destruct (blocks acc !! h) as [b0|] eqn:Hh; [|discriminate].
    injection Hred as <-. simpl.
    apply hashKeyed_insert; [exact Hk|]. simpl. exact (Hk _ _ Hh).
  - injection Hred as <-. simpl. intros k b Hb.
    apply unpinAll_lookup_Some in Hb as [_ [b0 [Hb0 ->]]].
    simpl. exact (Hk _ _ Hb0).
Qed.

Lemma deliver_inv c e c' :
  deliver c e = Returns c' ->
  reduce (acc c) e = Ok (acc c') /\ latest c' = Some (publish (acc c')) /\
  previous c' = previous c.
Proof.
  unfold deliver. destruct (reduce (acc c) e) as [a|]; [|discriminate].
  intros [= <-]. simpl. repeat split.
Qed.

(** What a tick did, read off its value. *)
Lemma tick_inv fuel c c' out :
  tick fuel c = Returns (c', out) ->
  (latest c = None /\ c' = c /\ out = []) \/
  exists p cur,
    latest c = Some p /\
    collect fuel (read p (acc c)) = Returns cur /\
    previous c' = Some cur /\
    out = match previous c with
          | Some prev => confirmed prev cur
          | None => []
          end /\
    ((out = [] /\ acc c' = acc c /\ latest c' = latest c) \/
     (out <> [] /\ reduce (acc c) (Unpin out) = Ok (acc c') /\
      latest c' = Some (publish (acc c')))).
Proof.
  unfold tick. destruct (latest c) as [p|] eqn:Hl.
  - destruct (collect fuel (read p (acc c))) as [cur| |] eqn:Hc; try discriminate.
    intros H. right. exists p, cur. split; [reflexivity|]. split; [exact Hc|].
    destruct (previous c) as [prev|].
    + destruct (confirmed prev cur) as [|x hashes] eqn:Hconf.
      * injection H as <- <-. simpl. auto 10.
      * destruct (deliver _ _) as [c2| |] eqn:Hd; try discriminate.
        injection H as <- <-.
        apply deliver_inv in Hd as (Hred & Hlat & Hprev). simpl in *.
        split; [exact Hprev|]. split; [reflexivity|]. right.
        split; [discriminate|]. split; assumption.
    + injection H as <- <-. simpl. auto 10.
  - intros [= <- <-]. left. auto.
Qed.

Lemma reachable_inv c : reachable c -> clientInv c.
Proof.
  induction 1 as [|c e c' _ [Hk Hs] _ Hd|c fuel c' out _ [Hk Hs] Ht].
  - split.
    + intros k b Hb. simpl in Hb. rewrite lookup_empty in Hb. discriminate.
    + intros p Hp. discriminate.
  - apply deliver_inv in Hd as (Hred & Hlat & _). split.
    + exact (reduce_hashKeyed _ _ _ Hk Hred).
    + intros p Hp. congruence.
  - apply tick_inv in Ht as [(_ & -> & _) | (p & cur & _ & _ & _ & _ & Hcase)];
      [split; assumption|].
    destruct Hcase as [(_ & Hacc & Hlat) | (_ & Hred & Hlat)].
    + split; [rewrite Hacc; exact Hk|].
      intros q Hq. rewrite Hacc. apply Hs. congruence.
    + split; [exact (reduce_hashKeyed _ _ _ Hk Hred)|].
      intros q Hq. congruence.
Qed.

Lemma confirmed_elem prev cur h : h ∈ confirmed prev cur <-> h ∈ prev /\ h ∈ cur.
Proof. unfold confirmed. rewrite list_elem_of_filter. reflexivity. Qed.

(** Every hash a tick emits names, in the accumulator the tick ran on, a
    tracked strict ancestor of [finalized] with [refCount] 0, and the
    finalized block lies on no cycle there. *)
Lemma tick_emits_idle_ancestors fuel c c' out h :
  clientInv c -> tick fuel c = Returns (c', out) -> h ∈ out ->
  ancestorOf (blocks (acc c)) (finalized (acc c)) h /\
  (exists node, blocks (acc c) !! h = Some node /\ refCount node = 0) /\
  acyclicFrom (blocks (acc c)) (finalized (acc c)) /\
  reduce (acc c) (Unpin out) = Ok (acc c').
Proof.
  intros [Hk Hs] Ht Hh.
  apply tick_inv in Ht as [(_ & _ & ->) | (p & cur & Hl & Hc & _ & Hout & Hcase)].
  { apply elem_of_nil in Hh. contradiction. }
  rewrite (Hs _ Hl), read_publish in Hc.
  destruct Hcase as [(-> & _) | (_ & Hred & _)].
  { apply elem_of_nil in Hh. contradiction. }
  destruct (previous c) as [prev|]; [|subst; apply elem_of_nil in Hh; contradiction].
  subst out. apply confirmed_elem in Hh as [_ Hh].
  destruct (collect_sound _ _ _ _ Hc Hh) as (a & node & Hanc & Ha & Hhash & Hz).
  assert (a = h) as -> by (rewrite <- Hhash; symmetry; exact (Hk _ _ Ha)).
  split; [exact Hanc|]. split; [eauto|].
  split; [exact (collect_acyclic _ _ _ Hc) | exact Hred].
Qed.

(** The follow events and the usage events remove no block. *)
Lemma external_keeps_blocks acc e acc' k :
  external e = true -> reduce acc e = Ok acc' ->
  is_Some (blocks acc !! k) -> is_Some (blocks acc' !! k).
Proof.
  intros Hext Hred [b Hb]. destruct e as [h n p|p h nr|h|hs|v h|hs];
    [simpl in Hred| |simpl in Hred..]; try discriminate Hext.
  - injection Hred as <-. simpl. destruct (decide (k = h)) as [->|Hne].
    + rewrite lookup_insert_eq. eauto.
    + rewrite lookup_insert_ne by congruence. eauto.
  - apply reduce_newBlock in Hred as (pn & Hp & -> & _).
    destruct (decide (k = h)) as [->|Hne]; [rewrite lookup_insert_eq; eauto|].
    rewrite lookup_insert_ne by congruence.
    destruct (decide (k = p)) as [->|Hne']; [rewrite lookup_insert_eq; eauto|].
    rewrite lookup_insert_ne by congruence. eauto.
  - injection Hred as <-. simpl. eauto.
  - apply reduce_finalized in Hred as (f & b' & _ & _ & _ & _ & Hbl).
    rewrite Hbl. eauto.
  - destruct (blocks acc !! h) as [b0|] eqn:Hh; [|discriminate].
    injection Hred as <-. simpl.
    destruct (decide (k = h)) as [->|Hne]; [rewrite lookup_insert_eq; eauto|].
    rewrite lookup_insert_ne by congruence. eauto.
Qed.

(** A tick removes the blocks it emits and no other. *)
Lemma tick_keeps_others fuel c c' out k b :
  tick fuel c = Returns (c', out) -> k ∉ out ->
  blocks (acc c) !! k = Some b ->
  exists children', blocks (acc c') !! k = Some (withChildren b children').
Proof.
  intros Ht Hk Hb.
  apply tick_inv in Ht as [(_ & -> & _) | (p & cur & _ & _ & _ & _ & Hcase)].
  { exists (children b). rewrite Hb. destruct b; reflexivity. }
  destruct Hcase as [(_ & -> & _) | (_ & Hred & _)].
  { exists (children b). rewrite Hb. destruct b; reflexivity. }
  destruct (reduce_unpin (acc c) out) as (a & E & _ & _ & _ & Hbl & _).
  rewrite E in Hred. injection Hred as ->. rewrite Hbl.
  apply unpinAll_lookup_keep; assumption.
Qed.

(** A tick emits no block that [finalized] descends from or is. *)
Lemma tick_spares_descendants fuel c c' out k :
  clientInv c -> tick fuel c = Returns (c', out) ->
  rtc (parentOf (blocks (acc c))) k (finalized (acc c)) -> k ∉ out.
Proof.
  intros Hinv Ht Hdesc Hin.
  destruct (tick_emits_idle_ancestors _ _ _ _ _ Hinv Ht Hin) as (Hanc & _ & Hacyc & _).
  apply (Hacyc (finalized (acc c))); [apply rtc_refl|].
  apply tc_rtc_r with k; assumption.
Qed.

Lemma deliverAll_reachable events : forall c c',
  reachable c -> forallb external events = true ->
  deliverAll c events = Returns c' -> reachable c'.
Proof.
  induction events as [|e rest IH]; intros c c' Hr Hext Hd; simpl in *.
  - injection Hd as <-. exact Hr.
  - apply andb_true_iff in Hext as [He Hrest].
    destruct (deliver c e) as [c1| |] eqn:Hd1; try discriminate.
    apply (IH c1); [|assumption..]. exact (reach_event c e c1 Hr He Hd1).
Qed.

Lemma tracking_reachable : reachable tracking.
Proof.
  apply (deliverAll_reachable chain start); [apply reach_start|reflexivity|].
  vm_compute. reflexivity.
Qed.

Lemma tickedOnce_reachable : reachable tickedOnce.
Proof.
  apply (reach_tick tracking 3 tickedOnce []); [apply tracking_reachable|].
  vm_compute. reflexivity.
Qed.

Lemma second_tick_emits :
  tick 3 tickedOnce = Returns (tickedTwice, ["B"; "A"]).
Proof. vm_compute. reflexivity. Qed.

(** C10.  The cleaner collects strict ancestors of the finalized block
    only.  In every reachable state, each hash a tick collects, and so each
    hash it emits, is reached from [finalized] by one or more parent links; a tracked block that is
    not (a block of a side fork, a descendant of [finalized], [finalized]
    itself) is not emitted and is still tracked after the tick, whatever
    its [refCount]. *)
Theorem cleaner_emits_strict_ancestors_only c fuel c' out :
  reachable c -> tick fuel c = Returns (c', out) ->
  (forall p collected,
     latest c = Some p -> collect fuel (read p (acc c)) = Returns collected ->
     forall h, h ∈ collected -> ancestorOf (blocks (acc c)) (finalized (acc c)) h) /\
  (forall h, h ∈ out -> ancestorOf (blocks (acc c)) (finalized (acc c)) h) /\
  (forall k b,
     blocks (acc c) !! k = Some b ->
     ~ ancestorOf (blocks (acc c)) (finalized (acc c)) k ->
     (k ∉ out) /\
     exists children', blocks (acc c') !! k = Some (withChildren b children')) /\
  (forall k, rtc (parentOf (blocks (acc c))) k (finalized (acc c)) -> k ∉ out).
Proof.
  intros Hr Ht. pose proof (reachable_inv c Hr) as Hinv.
  assert (forall h, h ∈ out -> ancestorOf (blocks (acc c)) (finalized (acc c)) h) as Hanc.
  { intros h Hh.
    exact (proj1 (tick_emits_idle_ancestors _ _ _ _ _ Hinv Ht Hh)). }
  split.
  { intros p collected Hp Hc h Hh. destruct Hinv as [Hk Hs].
    rewrite (Hs _ Hp), read_publish in Hc.
    exact (proj1 (proj1 (collect_elem _ _ _ h Hk Hc) Hh)). }
  split; [exact Hanc|]. split.
  - intros k b Hb Hnot. assert (k ∉ out) as Hk by (intros Hin; exact (Hnot (Hanc _ Hin))).
    split; [exact Hk|]. exact (tick_keeps_others _ _ _ _ _ _ Ht Hk Hb).
  - intros k Hdesc. exact (tick_spares_descendants _ _ _ _ _ Hinv Ht Hdesc).
Qed.

Lemma cleaner_emits_strict_ancestors_only_witness :
  (forall p collected,
     latest tickedOnce = Some p ->
     collect 3 (read p (acc tickedOnce)) = Returns collected ->
     forall h, h ∈ collected ->
       ancestorOf (blocks (acc tickedOnce)) (finalized (acc tickedOnce)) h) /\
  (forall h, h ∈ ["B"; "A"] ->
     ancestorOf (blocks (acc tickedOnce)) (finalized (acc tickedOnce)) h) /\
  (forall k b,
     blocks (acc tickedOnce) !! k = Some b ->
     ~ ancestorOf (blocks (acc tickedOnce)) (finalized (acc tickedOnce)) k ->
     (k ∉ ["B"; "A"]) /\
     exists children', blocks (acc tickedTwice) !! k = Some (withChildren b children')) /\
  (forall k, rtc (parentOf (blocks (acc tickedOnce))) k (finalized (acc tickedOnce)) ->
             k ∉ ["B"; "A"]).
Proof.
  apply (cleaner_emits_strict_ancestors_only tickedOnce 3 tickedTwice ["B"; "A"]).
  - exact tickedOnce_reachable.
  - exact second_tick_emits.
Defined.

(** C6.  In every reachable state no removal targets the finalized block or
    a block on the path from [finalized] to [best]: a tick emits neither,
    and after the [unpin] event it feeds back they are still tracked; the
    events of the follow stream and the usage events remove no block at
    all. *)
Theorem finalized_path_is_never_removed c :
  reachable c ->
  (forall fuel c' out d,
     tick fuel c = Returns (c', out) ->
     d = finalized (acc c) \/ onPath (acc c) d ->
     (d ∉ out) /\
     (is_Some (blocks (acc c) !! d) -> is_Some (blocks (acc c') !! d))) /\
  (forall e c' d,
     external e = true -> deliver c e = Returns c' ->
     is_Some (blocks (acc c) !! d) -> is_Some (blocks (acc c') !! d)).
Proof.
  intros Hr. pose proof (reachable_inv c Hr) as Hinv. split.
  - intros fuel c' out d Ht Hd.
    assert (d ∉ out) as Hout.
    { apply (tick_spares_descendants fuel c c'); [assumption..|].
      destruct Hd as [-> | [Hd _]]; [apply rtc_refl | exact Hd]. }
    split; [exact Hout|]. intros [b Hb].
    destruct (tick_keeps_others _ _ _ _ _ _ Ht Hout Hb) as [ch Hch]. eauto.
  - intros e c' d Hext Hd. apply deliver_inv in Hd as (Hred & _).
    exact (external_keeps_blocks _ _ _ _ Hext Hred).
Qed.

Lemma finalized_path_is_never_removed_witness :
  (forall fuel c' out d,
     tick fuel tickedOnce = Returns (c', out) ->
     d = finalized (acc tickedOnce) \/ onPath (acc tickedOnce) d ->
     (d ∉ out) /\
     (is_Some (blocks (acc tickedOnce) !! d) -> is_Some (blocks (acc c') !! d))) /\
  (forall e c' d,
     external e = true -> deliver tickedOnce e = Returns c' ->
     is_Some (blocks (acc tickedOnce) !! d) -> is_Some (blocks (acc c') !! d)).
Proof. apply (finalized_path_is_never_removed tickedOnce). exact tickedOnce_reachable. Defined.

(** C7.  Only blocks with [refCount] 0 are removed.  In every reachable
    state, each hash of the [unpin] event that a tick folds names a tracked
    block whose [refCount] is 0 in the accumulator the event is folded on; a
    tracked block whose [refCount] is not 0 at that moment is not named, and
    is tracked after the fold with the same [refCount]. *)
Theorem held_block_is_never_removed c fuel c' out :
  reachable c -> tick fuel c = Returns (c', out) ->
  (out <> [] -> reduce (acc c) (Unpin out) = Ok (acc c')) /\
  (forall h, h ∈ out ->
     exists b, blocks (acc c) !! h = Some b /\ refCount b = 0) /\
  (forall h b,
     blocks (acc c) !! h = Some b -> refCount b <> 0 ->
     (h ∉ out) /\
     exists b', blocks (acc c') !! h = Some b' /\ refCount b' = refCount b).
Proof.
  intros Hr Ht. pose proof (reachable_inv c Hr) as Hinv.
  assert (forall h, h ∈ out ->
            exists b, blocks (acc c) !! h = Some b /\ refCount b = 0) as Hidle.
  { intros h Hh.
    exact (proj1 (proj2 (tick_emits_idle_ancestors _ _ _ _ _ Hinv Ht Hh))). }
  split; [|split; [exact Hidle|]].
  - destruct out as [|h out']; [congruence|]. intros _.
    destruct (tick_emits_idle_ancestors _ _ _ _ h Hinv Ht) as (_ & _ & _ & Hred);
      [left | exact Hred].
  - intros h b Hb Hheld.
    assert (h ∉ out) as Hout.
    { intros Hin. destruct (Hidle _ Hin) as (b0 & Hb0 & Hz). congruence. }
    split; [exact Hout|].
    destruct (tick_keeps_others _ _ _ _ _ _ Ht Hout Hb) as [ch Hch].
    eexists. split; [exact Hch | reflexivity].
Qed.

Lemma held_block_is_never_removed_witness :
  (["B"; "A"] <> [] ->
   reduce (acc tickedOnce) (Unpin ["B"; "A"]) = Ok (acc tickedTwice)) /\
  (forall h, h ∈ ["B"; "A"] ->
     exists b, blocks (acc tickedOnce) !! h = Some b /\ refCount b = 0) /\
  (forall h b,
     blocks (acc tickedOnce) !! h = Some b -> refCount b <> 0 ->
     (h ∉ ["B"; "A"]) /\
     exists b', blocks (acc tickedTwice) !! h = Some b' /\ refCount b' = refCount b).
Proof.
  apply (held_block_is_never_removed tickedOnce 3 tickedTwice ["B"; "A"]).
  - exact tickedOnce_reachable.
  - exact second_tick_emits.
Defined.

(** ** The two-tick debounce *)

Lemma deliverAll_keeps events : forall c c',
  deliverAll c events = Returns c' ->
  previous c' = previous c /\ (is_Some (latest c) -> is_Some (latest c')).
Proof.
  induction events as [|e rest IH]; intros c c' Hd; simpl in Hd.
  - injection Hd as <-. auto.
  - destruct (deliver c e) as [c1| |] eqn:Hd1; try discriminate.
    apply deliver_inv in Hd1 as (_ & Hlat & Hprev).
    destruct (IH _ _ Hd) as [Hp Hl]. split; [congruence|].
    intros _. apply Hl. rewrite Hlat. eauto.
Qed.

Lemma reduce_untouched acc e acc' h :
  touches h e = false -> reduce acc e = Ok acc' ->
  refCount <$> blocks acc' !! h = refCount <$> blocks acc !! h.
Proof.
  intros Ht Hred. destruct e as [x n p|p x nr|x|hs|v x|hs];
    [simpl in Hred| |simpl in Hred..]; simpl in Ht;
    try apply bool_decide_eq_false in Ht.
  - injection Hred as <-. simpl. rewrite lookup_insert_ne by congruence. reflexivity.
  - apply reduce_newBlock in Hred as (pn & Hp & -> & _).
    rewrite lookup_insert_ne by congruence.
    destruct (decide (h = p)) as [->|Hne].
    + rewrite lookup_insert_eq, Hp. reflexivity.
    + rewrite lookup_insert_ne by congruence. reflexivity.
  - injection Hred as <-. reflexivity.
  - apply reduce_finalized in Hred as (f & b & _ & _ & _ & _ & ->). reflexivity.
  - destruct (blocks acc !! x) as [b0|]; [|discriminate].
    injection Hred as <-. simpl. rewrite lookup_insert_ne by congruence. reflexivity.
  - injection Hred as <-. simpl.
    destruct (blocks acc !! h) as [b|] eqn:Hb.
    + destruct (unpinAll_lookup_keep _ hs h b Ht Hb) as [ch ->]. reflexivity.
    + rewrite unpinAll_lookup_None by exact Hb. reflexivity.
Qed.

Lemma deliverAll_untouched events h : forall c c',
  forallb (fun e => negb (touches h e)) events = true ->
  deliverAll c events = Returns c' ->
  refCount <$> blocks (acc c') !! h = refCount <$> blocks (acc c) !! h.
Proof.
  induction events as [|e rest IH]; intros c c' Hun Hd; simpl in *.
  - injection Hd as <-. reflexivity.
  - apply andb_true_iff in Hun as [He Hrest]. apply negb_true_iff in He.
    destruct (deliver c e) as [c1| |] eqn:Hd1; try discriminate.
    apply deliver_inv in Hd1 as (Hred & _).
    rewrite (IH _ _ Hrest Hd). exact (reduce_untouched _ _ _ _ He Hred).
Qed.

Lemma deliverAll_app events1 events2 c c' :
  deliverAll c (events1 ++ events2) = Returns c' ->
  exists c1, deliverAll c events1 = Returns c1 /\ deliverAll c1 events2 = Returns c'.
Proof.
  revert c. induction events1 as [|e rest IH]; intros c Hd; simpl in *.
  - exists c. split; [reflexivity | exact Hd].
  - destruct (deliver c e) as [c1| |]; try discriminate. exact (IH _ Hd).
Qed.

(** C4.  Two-tick debounce.  Let a tick T0 run on a reachable client that
    has a snapshot to read, let external events follow, and let the next
    tick T1 run.  A hash is in the set that T1 emits exactly when the block
    is an ancestor of [finalized] with [refCount] 0 at T0 and again at T1;
    so a block whose [refCount] is not 0 at one of the two ticks is not
    emitted.  In particular, when a hold on a block arrives between the
    ticks and no other event between them touches that block, it is not in
    the set of T1. *)
Theorem two_tick_debounce c0 f0 c0' out0 events c1 f1 c1' out1 :
  reachable c0 -> is_Some (latest c0) ->
  tick f0 c0 = Returns (c0', out0) ->
  forallb external events = true -> deliverAll c0' events = Returns c1 ->
  tick f1 c1 = Returns (c1', out1) ->
  (forall h, h ∈ out1 <-> idleAncestor (acc c0) h /\ idleAncestor (acc c1) h) /\
  (forall h b,
     blocks (acc c0) !! h = Some b \/ blocks (acc c1) !! h = Some b ->
     refCount b <> 0 -> h ∉ out1) /\
  (forall h before after,
     events = before ++ BlockUsage Hold h :: after ->
     forallb (fun e => negb (touches h e)) (before ++ after) = true ->
     h ∉ out1).
Proof.
  intros Hr0 Hlat0 Ht0 Hext Hd Ht1.
  assert (reachable c1) as Hr1.
  { apply (deliverAll_reachable events c0'); [|assumption..].
    exact (reach_tick _ _ _ _ Hr0 Ht0). }
  destruct (reachable_inv _ Hr0) as [Hk0 Hs0].
  destruct (reachable_inv _ Hr1) as [Hk1 Hs1].
  destruct (deliverAll_keeps _ _ _ Hd) as [Hprev Hlat].
  pose proof Ht0 as Ht0'.
  apply tick_inv in Ht0' as [(Hnone & _) | (p0 & cur0 & Hl0 & Hc0 & Hp0 & _ & Hcase0)].
  { rewrite Hnone in Hlat0. destruct Hlat0 as [? ?]. discriminate. }
  rewrite (Hs0 _ Hl0), read_publish in Hc0.
  assert (is_Some (latest c1)) as [q1 Hq1].
  { apply Hlat. destruct Hcase0 as [(_ & _ & ->) | (_ & _ & ->)]; eauto. }
  pose proof Ht1 as Ht1'.
  apply tick_inv in Ht1' as [(Hnone & _) | (p1 & cur1 & Hl1 & Hc1 & _ & Hout1 & _)].
  { congruence. }
  rewrite (Hs1 _ Hl1), read_publish in Hc1.
  rewrite Hprev, Hp0 in Hout1.
  assert (forall h, h ∈ out1 <-> idleAncestor (acc c0) h /\ idleAncestor (acc c1) h) as Hiff.
  { intros h. rewrite Hout1, confirmed_elem.
    rewrite (collect_elem _ _ _ h Hk0 Hc0), (collect_elem _ _ _ h Hk1 Hc1).
    reflexivity. }
  split; [exact Hiff|]. split.
  { intros h b Hb Hheld Hin.
    apply Hiff in Hin as [(_ & b0 & Hb0 & Hz0) (_ & b1 & Hb1 & Hz1)].
    destruct Hb as [Hb|Hb]; congruence. }
  intros h before after -> Huntouched Hin.
  apply Hiff in Hin as [(_ & b0 & Hb0 & Hz0) (_ & b1 & Hb1 & Hz1)].
  rewrite forallb_app in Huntouched. apply andb_true_iff in Huntouched as [Hbefore Hafter].
  apply deliverAll_app in Hd as (ca & Hda & Hd). simpl in Hd.
  destruct (deliver ca (BlockUsage Hold h)) as [cb| |] eqn:Hdb; try discriminate.
  apply deliver_inv in Hdb as (Hred & _).
  pose proof (deliverAll_untouched _ h _ _ Hbefore Hda) as Hca.
  pose proof (deliverAll_untouched _ h _ _ Hafter Hd) as Hc1'.
  simpl in Hred. destruct (blocks (acc ca) !! h) as [b|] eqn:Hb; [|discriminate].
  assert (refCount b = 0) as Hzb.
  { destruct (decide (h ∈ out0)) as [Hin0|Hnin0].
    - destruct Hcase0 as [(-> & _) | (_ & Hred0 & _)].
      + apply elem_of_nil in Hin0. contradiction.
      + destruct (reduce_unpin (acc c0) out0) as (a & E & _ & _ & _ & Hbl & _).
        rewrite E in Hred0. injection Hred0 as Ha.
        rewrite <- Ha, Hbl, unpinAll_lookup_in in Hca by exact Hin0. discriminate.
    - destruct (tick_keeps_others _ _ _ _ _ _ Ht0 Hnin0 Hb0) as [ch Hch].
      rewrite Hch in Hca. simpl in Hca. injection Hca as ->. exact Hz0. }
  injection Hred as Hacc. rewrite <- Hacc in Hc1'. simpl in Hc1'.
  rewrite lookup_insert_eq, Hb1 in Hc1'. simpl in Hc1'. injection Hc1' as Hc1'. lia.
Qed.

Lemma two_tick_debounce_witness :
  (forall h, h ∈ ["B"] <->
             idleAncestor (acc tracking) h /\ idleAncestor (acc heldBetween) h) /\
  (forall h b,
     blocks (acc tracking) !! h = Some b \/ blocks (acc heldBetween) !! h = Some b ->
     refCount b <> 0 -> h ∉ ["B"]) /\
  (forall h before after,
     [BlockUsage Hold "A"] = before ++ BlockUsage Hold h :: after ->
     forallb (fun e => negb (touches h e)) (before ++ after) = true ->
     h ∉ ["B"]).
Proof.
  apply (two_tick_debounce tracking 3 tickedOnce [] [BlockUsage Hold "A"]
           heldBetween 3 (afterTick 3 heldBetween) ["B"]).
  - exact tracking_reachable.
  - vm_compute. eauto.
  - vm_compute. reflexivity.
  - reflexivity.
  - vm_compute. reflexivity.
  - vm_compute. reflexivity.
Defined.

(** ** Published snapshots *)

(** C2, as the pipeline behaves.  The reducer changes its accumulator in
    place and each step publishes a shallow copy of it.  When a step has
    succeeded, the copy published for it shows the accumulator as the whole
    step left it.  A copy published earlier keeps its own [best],
    [finalized] and [finalizedRuntime] reference through all later steps,
    but its [blocks] and [runtimes] are the accumulator's own Map and
    record: read after later steps, they hold what those steps have made of
    them, nodes and Runtime objects included.  A later step that only moves
    a pointer ([bestBlockChanged], [finalized]) leaves every earlier copy as
    it was. *)
Theorem published_copy_is_shallow acc events acc' :
  scan acc events = Ok acc' ->
  read (publish acc') acc' = acc' /\
  (best (read (publish acc) acc') = best acc /\
   finalized (read (publish acc) acc') = finalized acc /\
   finalizedRuntime (read (publish acc) acc') = finalizedRuntime acc) /\
  (blocks (read (publish acc) acc') = blocks acc' /\
   runtimes (read (publish acc) acc') = runtimes acc' /\
   registry (read (publish acc) acc') = registry acc') /\
  (forallb movesPointerOnly events = true ->
   read (publish acc) acc' = acc).
Proof.
  intros Hscan. split; [apply read_publish|].
  split; [repeat split|]. split; [repeat split|].
  revert acc Hscan. induction events as [|e rest IH]; intros acc Hscan Hmoves;
    simpl in *.
  - injection Hscan as <-. apply read_publish.
  - apply andb_true_iff in Hmoves as [He Hrest].
    destruct (reduce acc e) as [acc1|] eqn:Hred; [|discriminate].
    specialize (IH acc1 Hscan Hrest).
    assert (blocks acc1 = blocks acc /\ runtimes acc1 = runtimes acc /\
            registry acc1 = registry acc) as (Hb & Hrt & Hrg).
    { destruct e as [h n p|p h nr|h|hs|v h|hs]; try discriminate He.
      - simpl in Hred. injection Hred as <-. repeat split.
      - simpl in Hred. destruct (last hs); [|discriminate].
        destruct (blocks acc !! s); [|discriminate].
        injection Hred as <-. repeat split. }
    apply (f_equal blocks) in IH as Hb'.
    apply (f_equal runtimes) in IH as Hrt'.
    apply (f_equal registry) in IH as Hrg'.
    simpl in *. destruct acc. unfold read, publish. simpl in *. congruence.
Qed.

Lemma published_copy_is_shallow_witness :
  read (publish twoBlocks) twoBlocks = twoBlocks /\
  (best (read (publish announced) twoBlocks) = best announced /\
   finalized (read (publish announced) twoBlocks) = finalized announced /\
   finalizedRuntime (read (publish announced) twoBlocks) = finalizedRuntime announced) /\
  (blocks (read (publish announced) twoBlocks) = blocks twoBlocks /\
   runtimes (read (publish announced) twoBlocks) = runtimes twoBlocks /\
   registry (read (publish announced) twoBlocks) = registry twoBlocks) /\
  (forallb movesPointerOnly [BestBlockChanged "B"; Finalized ["B"]] = true ->
   read (publish announced) twoBlocks = announced).
Proof.
  apply (published_copy_is_shallow announced
           [BestBlockChanged "B"; Finalized ["B"]] twoBlocks).
  vm_compute. reflexivity.
Defined.

(** C2, as stated, fails: the snapshot published for [initialized(A)] has no
    block B, A has no children and [refCount] 0; after the folds of
    [newBlock(A, B)] and [hold(A)] the same published object shows B in its
    [blocks], B among A's children and A's [refCount] at 1, and a second
    usage in the Runtime object of A. *)
Lemma later_steps_change_published_snapshot :
  exists s1 s2 a1 a2 r1 r2,
    reduce seed (Initialized "A" 0 "P") = Ok s1 /\
    scan s1 [NewBlock "A" "B" false; BlockUsage Hold "A"] = Ok s2 /\
    blocks (read (publish s1) s1) !! "B" = None /\
    is_Some (blocks (read (publish s1) s2) !! "B") /\
    blocks (read (publish s1) s1) !! "A" = Some a1 /\
    blocks (read (publish s1) s2) !! "A" = Some a2 /\
    children a1 = ∅ /\ children a2 = {[ "B" ]} /\
    refCount a1 = 0 /\ refCount a2 = 1 /\
    registry (read (publish s1) s1) !! 0%nat = Some r1 /\
    registry (read (publish s1) s2) !! 0%nat = Some r2 /\
    usages r1 = {[ "A" ]} /\ usages r2 = {[ "A"; "B" ]}.
Proof.
  eexists _, _, _, _, _, _.
  split; [reflexivity|]. split; [vm_compute; reflexivity|].
  split; [vm_compute; reflexivity|]. split; [vm_compute; eauto|].
  split; [vm_compute; reflexivity|]. split; [vm_compute; reflexivity|].
  split; [reflexivity|]. split; [vm_compute; reflexivity|].
  split; [reflexivity|]. split; [reflexivity|].
  split; [reflexivity|]. split; [vm_compute; reflexivity|].
  split; [reflexivity|]. vm_compute. reflexivity.
Qed.

(** * Further properties of the reducer and the cleaner *)

(** ** When the reducer throws *)

(** X1.  The reducer throws in three cases only: a [newBlock] whose parent is not
    tracked or, when the block takes its parent's runtime, whose parent
    names a runtime that is not in [runtimes]; a [finalized] with an empty
    list or whose last hash is not tracked; a [blockUsage] for a block that
    is not tracked.  [initialized], [bestBlockChanged] and [unpin] never
    throw, and neither does a [newBlock] with a new runtime under a tracked
    parent. *)
Theorem reduce_throws_exactly acc e :
  reduce acc e = TypeError <->
  match e with
  | Initialized _ _ _ | BestBlockChanged _ | Unpin _ => False
  | NewBlock p h nr =>
      match blocks acc !! p with
      | None => True
      | Some pn => nr = false /\ runtimes acc !! runtime pn = None
      end
  | Finalized hs =>
      match last hs with
      | None => True
      | Some f => blocks acc !! f = None
      end
  | BlockUsage _ h => blocks acc !! h = None
  end.
Proof.
  destruct e as [h n p|p h nr|h|hs|v h|hs]; simpl.
  - split; [discriminate | contradiction].
  - destruct (blocks acc !! p) as [pn|]; [|tauto].
    destruct nr; simpl.
    + rewrite lookup_insert_eq. split; [discriminate | intros [? _]; discriminate].
    + destruct (runtimes acc !! runtime pn); split; try tauto; try discriminate.
      intros [_ ?]. discriminate.
  - split; [discriminate | contradiction].
  - destruct (last hs) as [f|]; [|tauto].
    destruct (blocks acc !! f); split; try tauto; discriminate.
  - destruct (blocks acc !! h); split; try tauto; discriminate.
  - split; [discriminate | contradiction].
Qed.

(** ** A hold and its release *)

(** X2.  On a tracked block, a hold followed by its release, and a release
    followed by a hold, leave the accumulator exactly as it was. *)
Theorem hold_release_round_trip acc h b :
  blocks acc !! h = Some b ->
  scan acc [BlockUsage Hold h; BlockUsage Release h] = Ok acc /\
  scan acc [BlockUsage Release h; BlockUsage Hold h] = Ok acc.
Proof.
  intros Hb.
  assert (forall n, withRefCount (withRefCount b n) (refCount b) = b) as Hback
    by (intros; destruct b; reflexivity).
  split; simpl; rewrite Hb; simpl; rewrite lookup_insert_eq; simpl;
    rewrite insert_insert_eq.
  - replace (refCount b + 1 + -1) with (refCount b) by lia.
    rewrite Hback, (insert_id _ _ _ Hb). destruct acc; reflexivity.
  - replace (refCount b + -1 + 1) with (refCount b) by lia.
    rewrite Hback, (insert_id _ _ _ Hb). destruct acc; reflexivity.
Qed.

Lemma hold_release_round_trip_witness :
  scan twoBlocks [BlockUsage Hold "A"; BlockUsage Release "A"] = Ok twoBlocks /\
  scan twoBlocks [BlockUsage Release "A"; BlockUsage Hold "A"] = Ok twoBlocks.
Proof.
  apply (hold_release_round_trip twoBlocks "A"
           (mkPinnedBlock "A" 0 "P" {[ "B" ]} "A" 0)).
  vm_compute. reflexivity.
Defined.

(** ** What the cleaner hands to [onUnpin] *)

Lemma setAdd_NoDup result x : NoDup result -> NoDup (setAdd result x).
Proof.
  intros Hnd. unfold setAdd. destruct (decide (x ∈ result)) as [|Hnin]; [exact Hnd|].
  apply NoDup_app. split; [exact Hnd|]. split.
  - intros y Hy Hy'. apply list_elem_of_singleton in Hy'. congruence.
  - apply NoDup_singleton.
Qed.

Lemma walk_NoDup blocks : forall fuel current result r,
  NoDup result -> walk fuel blocks current result = Some r -> NoDup r.
Proof.
  induction fuel as [|fuel IH]; intros current result r Hnd Hw; [discriminate|].
  simpl in Hw. destruct (blocks !! parent current) as [next|].
  - refine (IH _ _ _ _ Hw).
    destruct (decide (refCount next = 0)); [apply setAdd_NoDup|]; exact Hnd.
  - injection Hw as <-. exact Hnd.
Qed.

(** X3.  The array a tick passes to [onUnpin] and sends as [unpin] event holds no
    hash twice, on every client. *)
Theorem emitted_hashes_are_distinct fuel c c' out :
  tick fuel c = Returns (c', out) -> NoDup out.
Proof.
  intros Ht.
  apply tick_inv in Ht as [(_ & _ & ->) | (p & cur & _ & Hc & _ & -> & _)].
  { apply NoDup_nil. exact I. }
  destruct (previous c) as [prev|]; [|apply NoDup_nil; exact I].
  unfold confirmed. apply NoDup_filter.
  unfold collect in Hc. destruct (blocks _ !! _) as [current|]; [|discriminate].
  destruct (walk fuel _ _ _) as [r|] eqn:Hw; [|discriminate].
  injection Hc as <-. apply (walk_NoDup _ _ _ _ _ (NoDup_nil_2) Hw).
Qed.

Lemma emitted_hashes_are_distinct_witness : NoDup ["B"; "A"].
Proof.
  apply (emitted_hashes_are_distinct 3 tickedOnce tickedTwice ["B"; "A"]).
  exact second_tick_emits.
Defined.

(** ** The blocks after an [unpin] *)

Lemma withChildren_twice b c1 c2 :
  withChildren (withChildren b c1) c2 = withChildren b c2.
Proof. reflexivity. Qed.

Lemma withChildren_same b : withChildren b (children b) = b.
Proof. destruct b; reflexivity. Qed.

Lemma unpinBlock_parent (m : gmap string PinnedBlock) h x :
  x <> h -> parent <$> unpinBlock m h !! x = parent <$> m !! x.
Proof.
  intros Hne. rewrite unpinBlock_lookup.
  destruct (decide (x = h)); [congruence|].
  destruct (m !! h) as [bh|]; [|reflexivity].
  destruct (decide (x = parent bh)); [|reflexivity].
  destruct (m !! x); reflexivity.
Qed.

Lemma strippedFrom_elem (m : gmap string PinnedBlock) hs k x :
  x ∈ strippedFrom m hs k <-> x ∈ hs /\ parent <$> m !! x = Some k.
Proof.
  unfold strippedFrom. rewrite elem_of_list_to_set, list_elem_of_filter. tauto.
Qed.

(** One turn of the loop, on the children of a block that stays. *)
Lemma unpinBlock_lookup_other (m : gmap string PinnedBlock) h k b :
  k <> h -> m !! k = Some b ->
  unpinBlock m h !! k =
  Some (withChildren b
          (children b ∖ (if decide (parent <$> m !! h = Some k) then {[ h ]} else ∅))).
Proof.
  intros Hne Hk. rewrite unpinBlock_lookup. destruct (decide (k = h)); [congruence|].
  destruct (m !! h) as [bh|]; simpl.
  - destruct (decide (k = parent bh)) as [->|Hkp]; case_decide; try congruence.
    + rewrite Hk. reflexivity.
    + rewrite difference_empty_L, withChildren_same. exact Hk.
  - try case_decide; try discriminate.
    rewrite difference_empty_L, withChildren_same. exact Hk.
Qed.

(** The closed form of [event.hashes.forEach]: the named blocks are gone,
    and every other block has lost from its [children] the named blocks
    that were its children in the map the event was folded on. *)
Lemma unpinAll_closed hs : forall (m : gmap string PinnedBlock) k,
  foldl unpinBlock m hs !! k =
  if decide (k ∈ hs) then None
  else (fun b => withChildren b (children b ∖ strippedFrom m hs k)) <$> m !! k.
Proof.
  induction hs as [|h hs IH]; intros m k; cbn [foldl].
  - rewrite decide_False by (intros Hin; apply elem_of_nil in Hin; exact Hin).
    destruct (m !! k) as [b|]; [|reflexivity]. simpl. f_equal.
    rewrite <- (withChildren_same b) at 1. f_equal.
    apply set_eq. intros x. rewrite elem_of_difference, strippedFrom_elem.
    rewrite elem_of_nil. tauto.
  - rewrite IH. destruct (decide (k = h)) as [->|Hne].
    { rewrite (decide_True (P := h ∈ h :: hs)) by left.
      rewrite unpinBlock_lookup.
      rewrite (decide_True (P := h = h)) by reflexivity.
      destruct (decide (h ∈ hs)); reflexivity. }
    destruct (decide (k ∈ hs)) as [Hin|Hnin].
    { rewrite decide_True by (right; exact Hin). reflexivity. }
    rewrite decide_False by (intros Hin; apply elem_of_cons in Hin; tauto).
    destruct (m !! k) as [b|] eqn:Hk.
    + rewrite (unpinBlock_lookup_other m h k b Hne Hk). simpl.
      rewrite withChildren_twice. do 2 f_equal.
      apply set_eq. intros x.
      rewrite !elem_of_difference, !strippedFrom_elem, elem_of_cons.
      destruct (decide (x = h)) as [->|Hx].
      * rewrite unpinBlock_lookup.
        rewrite (decide_True (P := h = h)) by reflexivity. simpl.
        destruct (decide (parent <$> m !! h = Some k)) as [Hp|Hp].
        -- rewrite elem_of_singleton. naive_solver.
        -- rewrite elem_of_empty. naive_solver.
      * rewrite (unpinBlock_parent m h x Hx).
        destruct (decide (parent <$> m !! h = Some k)).
        -- rewrite elem_of_singleton. naive_solver.
        -- rewrite elem_of_empty. naive_solver.
    + assert (unpinBlock m h !! k = None) as ->; [|reflexivity].
      rewrite unpinBlock_lookup.
      rewrite (decide_False (P := k = h)) by exact Hne.
      destruct (m !! h) as [bh|]; [|exact Hk].
      destruct (decide (k = parent bh)); rewrite Hk; reflexivity.
Qed.

(** X4.  The blocks after an [unpin] event, for every accumulator: the named
    blocks are gone; a block that is not named stays with the same fields
    but for [children], which loses exactly the named hashes whose block has
    it for parent; no block is added. *)
Theorem unpin_removes_named_blocks_only acc hs :
  exists acc',
    reduce acc (Unpin hs) = Ok acc' /\
    (forall k, k ∈ hs -> blocks acc' !! k = None) /\
    (forall k, blocks acc !! k = None -> blocks acc' !! k = None) /\
    (forall k b,
       k ∉ hs -> blocks acc !! k = Some b ->
       exists b',
         blocks acc' !! k = Some b' /\ b' = withChildren b (children b') /\
         forall c, c ∈ children b' <->
                   c ∈ children b /\
                   ~ (c ∈ hs /\ exists bc, blocks acc !! c = Some bc /\ parent bc = k)).
Proof.
  destruct (reduce_unpin acc hs) as (acc' & E & _ & _ & _ & Hbl & _).
  exists acc'. split; [exact E|]. rewrite Hbl. split; [|split].
  - intros k Hk. apply unpinAll_lookup_in. exact Hk.
  - intros k Hk. apply unpinAll_lookup_None. exact Hk.
  - intros k b Hk Hb. rewrite unpinAll_closed, decide_False, Hb by exact Hk.
    eexists. split; [reflexivity|]. split; [reflexivity|].
    intros c. simpl. rewrite elem_of_difference, strippedFrom_elem.
    assert (parent <$> blocks acc !! c = Some k <->
            exists bc, blocks acc !! c = Some bc /\ parent bc = k) as ->; [|tauto].
    destruct (blocks acc !! c) as [bc|]; simpl; [|naive_solver].
    split; [intros [= <-]; eauto | intros (? & [= <-] & <-); reflexivity].
Qed.

(** ** Folding [unpin] events one after the other, or at once *)

Lemma PinnedBlocks_ext (a1 a2 : PinnedBlocks) :
  best a1 = best a2 -> finalized a1 = finalized a2 ->
  finalizedRuntime a1 = finalizedRuntime a2 ->
  (forall k, blocks a1 !! k = blocks a2 !! k) ->
  (forall k, runtimes a1 !! k = runtimes a2 !! k) ->
  (forall l, registry a1 !! l = registry a2 !! l) ->
  a1 = a2.
Proof.
  intros Hb Hf Hr Hbl Hrt Hrg. apply map_eq in Hbl. apply map_eq in Hrt.
  apply list_eq in Hrg. destruct a1, a2. simpl in *. congruence.
Qed.

Lemma deleteBlocks_app hs1 hs2 r :
  deleteBlocks hs2 (deleteBlocks hs1 r) = deleteBlocks (hs1 ++ hs2) r.
Proof.
  unfold deleteBlocks. simpl. f_equal. apply set_eq. intros x.
  rewrite !elem_of_difference, !elem_of_list_to_set, elem_of_app. tauto.
Qed.

Lemma deleteBlocks_same_elements hs hs' r :
  (forall x, x ∈ hs <-> x ∈ hs') -> deleteBlocks hs r = deleteBlocks hs' r.
Proof.
  intros Hsame. unfold deleteBlocks. f_equal. apply set_eq. intros x.
  rewrite !elem_of_difference, !elem_of_list_to_set, Hsame. tauto.
Qed.

(** [deleteBlocks] returns 0 exactly when every block that uses the
    descriptor is among the hashes. *)
Lemma countAfter_zero hs (reg : list Runtime) l :
  countAfter hs reg l = Some 0%nat <->
  exists r, reg !! l = Some r /\ forall x, x ∈ usages r -> x ∈ hs.
Proof.
  unfold countAfter. destruct (reg !! l) as [r|]; simpl.
  - unfold usageCount. simpl. split.
    + intros [= Hz]. exists r. split; [reflexivity|]. intros x Hx.
      apply size_empty_inv in Hz.
      destruct (decide (x ∈ hs)) as [|Hn]; [assumption|].
      exfalso. apply (not_elem_of_empty (C := gset string) x). rewrite <- Hz.
      apply elem_of_difference. rewrite elem_of_list_to_set. tauto.
    + intros (r' & [= <-] & Hall). f_equal. apply size_empty_iff.
      intros x. rewrite elem_of_difference, elem_of_list_to_set.
      split; [intros [Hx Hn]; exfalso; exact (Hn (Hall x Hx))|].
      intros Hx. exfalso. exact (not_elem_of_empty x Hx).
  - split; [discriminate | intros (r & ? & _); discriminate].
Qed.

(** X5.  Folding [unpin(hs1)] and then [unpin(hs2)] gives the accumulator that
    the single event [unpin(hs1 ++ hs2)] gives: same blocks, same runtimes,
    same Runtime objects. *)
Theorem unpin_in_two_batches acc hs1 hs2 :
  scan acc [Unpin hs1; Unpin hs2] = reduce acc (Unpin (hs1 ++ hs2)).
Proof.
  destruct (reduce_unpin acc hs1) as (a1 & E1 & Hb1 & Hf1 & Hr1 & Hbl1 & Hrt1 & Hin1 & Hout1).
  destruct (reduce_unpin a1 hs2) as (a2 & E2 & Hb2 & Hf2 & Hr2 & Hbl2 & Hrt2 & Hin2 & Hout2).
  destruct (reduce_unpin acc (hs1 ++ hs2)) as (a & E & Hb & Hf & Hr & Hbl & Hrt & Hin & Hout).
  cbn [scan]. rewrite E1, E2, E. f_equal.
  assert (forall k l, runtimes a1 !! k = Some l ->
            runtimes acc !! k = Some l /\
            countAfter hs1 (registry acc) l <> Some 0%nat) as Hsurv.
  { intros k l Hk. rewrite Hrt1 in Hk.
    destruct (runtimes acc !! k) as [l'|]; [|discriminate].
    destruct (decide (countAfter hs1 (registry acc) l' = Some 0%nat)); [discriminate|].
    injection Hk as ->. split; [reflexivity | assumption]. }
  assert (forall l r, registry acc !! l = Some r ->
            (forall x, x ∈ usages r -> x ∈ hs1) ->
            deleteBlocks hs1 r = deleteBlocks (hs1 ++ hs2) r) as Hdrained.
  { intros l r _ Hall. unfold deleteBlocks. f_equal. apply set_eq. intros x.
    rewrite !elem_of_difference, !elem_of_list_to_set, elem_of_app.
    specialize (Hall x). tauto. }
  apply PinnedBlocks_ext; try congruence.
  - intros k. rewrite Hbl2, Hbl1, Hbl, foldl_app. reflexivity.
  - intros k. rewrite Hrt2, Hrt1, Hrt.
    destruct (runtimes acc !! k) as [l|] eqn:Hk; [|reflexivity].
    destruct (decide (countAfter hs1 (registry acc) l = Some 0%nat)) as [Hz|Hnz].
    + rewrite decide_True; [reflexivity|].
      apply countAfter_zero in Hz as (r & Hl & Hall). apply countAfter_zero.
      exists r. split; [exact Hl|]. intros x Hx. apply elem_of_app. left. auto.
    + assert (countAfter hs2 (registry a1) l = countAfter (hs1 ++ hs2) (registry acc) l) as ->.
      { unfold countAfter. rewrite (Hin1 k l Hk).
        destruct (registry acc !! l) as [r|]; simpl; [|reflexivity].
        rewrite deleteBlocks_app. reflexivity. }
      reflexivity.
  - intros l. destruct (referenced_dec (runtimes a1) l) as [[k Hk]|Hno1].
    + destruct (Hsurv k l Hk) as [Hk0 _].
      rewrite (Hin2 k l Hk), (Hin1 k l Hk0), (Hin k l Hk0).
      destruct (registry acc !! l) as [r|]; simpl; [|reflexivity].
      rewrite deleteBlocks_app. reflexivity.
    + rewrite (Hout2 l Hno1).
      destruct (referenced_dec (runtimes acc) l) as [[k Hk]|Hno].
      * rewrite (Hin1 k l Hk), (Hin k l Hk).
        assert (countAfter hs1 (registry acc) l = Some 0%nat) as Hz.
        { destruct (decide (countAfter hs1 (registry acc) l = Some 0%nat)) as [|Hnz];
            [assumption|].
          exfalso. apply (Hno1 k). rewrite Hrt1, Hk.
          rewrite decide_False by exact Hnz. reflexivity. }
        apply countAfter_zero in Hz as (r & Hl & Hall). rewrite Hl. simpl.
        f_equal. exact (Hdrained l r Hl Hall).
      * rewrite (Hout1 l Hno), (Hout l Hno). reflexivity.
Qed.

(** X6.  The result of an [unpin] event depends on which hashes it names only,
    not on their order in the array nor on repetitions. *)
Theorem unpin_depends_on_the_set_named acc hs hs' :
  (forall x, x ∈ hs <-> x ∈ hs') ->
  reduce acc (Unpin hs) = reduce acc (Unpin hs').
Proof.
  intros Hsame.
  destruct (reduce_unpin acc hs) as (a1 & E1 & Hb1 & Hf1 & Hr1 & Hbl1 & Hrt1 & Hin1 & Hout1).
  destruct (reduce_unpin acc hs') as (a2 & E2 & Hb2 & Hf2 & Hr2 & Hbl2 & Hrt2 & Hin2 & Hout2).
  rewrite E1, E2. f_equal.
  assert (forall l, countAfter hs (registry acc) l = countAfter hs' (registry acc) l) as Hcount.
  { intros l. unfold countAfter. destruct (registry acc !! l) as [r|]; [|reflexivity].
    simpl. rewrite (deleteBlocks_same_elements hs hs' r Hsame). reflexivity. }
  apply PinnedBlocks_ext; try congruence.
  - intros k. rewrite Hbl1, Hbl2, !unpinAll_closed.
    destruct (decide (k ∈ hs)) as [Hin|Hnin].
    + rewrite decide_True by (apply Hsame; exact Hin). reflexivity.
    + rewrite decide_False by (rewrite <- Hsame; exact Hnin).
      destruct (blocks acc !! k) as [b|]; [|reflexivity]. simpl. do 3 f_equal.
      apply set_eq. intros x. rewrite !strippedFrom_elem, Hsame. reflexivity.
  - intros k. rewrite Hrt1, Hrt2.
    destruct (runtimes acc !! k) as [l|]; [|reflexivity].
    rewrite Hcount. reflexivity.
  - intros l. destruct (referenced_dec (runtimes acc) l) as [[k Hk]|Hno].
    + rewrite (Hin1 k l Hk), (Hin2 k l Hk).
      destruct (registry acc !! l) as [r|]; [|reflexivity]. simpl.
      rewrite (deleteBlocks_same_elements hs hs' r Hsame). reflexivity.
    + rewrite (Hout1 l Hno), (Hout2 l Hno). reflexivity.
Qed.

Lemma unpin_depends_on_the_set_named_witness :
  reduce (acc tickedOnce) (Unpin ["B"; "A"]) =
  reduce (acc tickedOnce) (Unpin ["A"; "B"; "A"]).
Proof.
  apply (unpin_depends_on_the_set_named (acc tickedOnce) ["B"; "A"] ["A"; "B"; "A"]).
  intros x. rewrite !elem_of_cons, elem_of_nil. tauto.
Defined.

(** ** Which runtimes an [unpin] drops *)

(** X7.  An [unpin] event drops a runtime from [runtimes] exactly when every
    block that uses its Runtime object is named by the event; a runtime it
    keeps stays under the same key with the same object, which has lost the
    named hashes; and no runtime is added. *)
Theorem unpin_drops_drained_runtimes_only acc hs acc' :
  reduce acc (Unpin hs) = Ok acc' ->
  (forall k, runtimes acc !! k = None -> runtimes acc' !! k = None) /\
  (forall k l r,
     runtimes acc !! k = Some l -> registry acc !! l = Some r ->
     registry acc' !! l = Some (deleteBlocks hs r) /\
     (runtimes acc' !! k = None <-> forall x, x ∈ usages r -> x ∈ hs) /\
     (runtimes acc' !! k = None \/ runtimes acc' !! k = Some l)).
Proof.
  intros Hred.
  destruct (reduce_unpin acc hs) as (a & E & _ & _ & _ & _ & Hrt & Hin & _).
  rewrite E in Hred. injection Hred as ->. split.
  - intros k Hk. rewrite Hrt, Hk. reflexivity.
  - intros k l r Hk Hl. split; [rewrite (Hin k l Hk), Hl; reflexivity|].
    rewrite Hrt, Hk.
    destruct (decide (countAfter hs (registry acc) l = Some 0%nat)) as [Hz|Hnz].
    + split; [|left; reflexivity]. split; [|reflexivity]. intros _.
      apply countAfter_zero in Hz as (r' & Hl' & Hall).
      assert (r' = r) as -> by congruence. exact Hall.
    + split; [|right; reflexivity]. split; [discriminate|].
      intros Hall. exfalso. apply Hnz. apply countAfter_zero. eauto.
Qed.

Lemma unpin_drops_drained_runtimes_only_witness :
  (forall k, runtimes (acc tickedOnce) !! k = None ->
             runtimes (acc tickedTwice) !! k = None) /\
  (forall k l r,
     runtimes (acc tickedOnce) !! k = Some l ->
     registry (acc tickedOnce) !! l = Some r ->
     registry (acc tickedTwice) !! l = Some (deleteBlocks ["B"; "A"] r) /\
     (runtimes (acc tickedTwice) !! k = None <->
      forall x, x ∈ usages r -> x ∈ ["B"; "A"]) /\
     (runtimes (acc tickedTwice) !! k = None \/
      runtimes (acc tickedTwice) !! k = Some l)).
Proof.
  apply (unpin_drops_drained_runtimes_only (acc tickedOnce) ["B"; "A"] (acc tickedTwice)).
  vm_compute. reflexivity.
Defined.

(** ** The block tree and the runtimes on a conforming stream *)

Lemma fresh_spec acc h :
  fresh acc h = true ->
  blocks acc !! h = None /\
  forall k b, blocks acc !! k = Some b -> parent b <> h /\ runtime b <> h.
Proof.
  unfold fresh. intros H. apply andb_true_iff in H as [Hn Hall].
  apply bool_decide_eq_true in Hn. split; [exact Hn|].
  intros k b Hb. rewrite forallb_forall in Hall.
  specialize (Hall (k, b)). simpl in Hall.
  assert (In (k, b) (map_to_list (blocks acc))) as Hin.
  { apply list_elem_of_In. apply elem_of_map_to_list. exact Hb. }
  apply Hall in Hin. apply andb_true_iff in Hin as [Hp Hr].
  apply negb_true_iff, bool_decide_eq_false in Hp.
  apply negb_true_iff, bool_decide_eq_false in Hr. tauto.
Qed.

(** The blocks after a [newBlock] that announces [h] under another block
    [p]: the new node under [h], [h] added to the children of [p], and the
    other blocks as they were. *)
Lemma newBlock_blocks acc p h nr acc' :
  reduce acc (NewBlock p h nr) = Ok acc' -> h <> p ->
  exists pn,
    blocks acc !! p = Some pn /\
    blocks acc' !! h =
      Some (mkPinnedBlock h (number pn + 1) p ∅ (if nr then h else runtime pn) 0) /\
    forall k, k <> h ->
      blocks acc' !! k =
      (fun b => withChildren b
                  (children b ∪ (if decide (k = p) then {[ h ]} else ∅)))
        <$> blocks acc !! k.
Proof.
  intros Hred Hne. apply reduce_newBlock in Hred as (pn & Hp & -> & _).
  exists pn. split; [exact Hp|]. split; [apply lookup_insert_eq|].
  intros k Hk. rewrite lookup_insert_ne by congruence.
  destruct (decide (k = p)) as [->|Hkp].
  - rewrite lookup_insert_eq, Hp. reflexivity.
  - rewrite lookup_insert_ne by congruence.
    destruct (blocks acc !! k) as [b|]; [|reflexivity]. simpl.
    rewrite union_empty_r_L, withChildren_same. reflexivity.
Qed.

(** The runtimes and the Runtime objects after a [newBlock]. *)
Lemma newBlock_runtimes acc p h nr acc' :
  reduce acc (NewBlock p h nr) = Ok acc' ->
  exists pn,
    blocks acc !! p = Some pn /\
    best acc' = best acc /\ finalized acc' = finalized acc /\
    finalizedRuntime acc' = finalizedRuntime acc /\
    if nr
    then runtimes acc' = <[h := length (registry acc)]> (runtimes acc) /\
         registry acc' = registry acc ++ [addBlock h (subscribe (getRuntime h))]
    else runtimes acc' = runtimes acc /\
         exists l, runtimes acc !! runtime pn = Some l /\
                   registry acc' = alter (addBlock h) l (registry acc).
Proof.
  simpl. destruct (blocks acc !! p) as [pn|]; [|discriminate].
  destruct nr; simpl.
  - rewrite lookup_insert_eq. intros [= <-]. exists pn. simpl.
    repeat split. apply list_eq. intros i.
    destruct (decide (i = length (registry acc))) as [->|Hi].
    + rewrite list_lookup_alter_eq, !lookup_app_r, Nat.sub_diag by lia. reflexivity.
    + rewrite list_lookup_alter_ne by congruence.
      destruct (decide (i < length (registry acc))%nat).
      * rewrite !lookup_app_l by assumption. reflexivity.
      * rewrite !lookup_ge_None_2 by (rewrite length_app; simpl; lia). reflexivity.
  - destruct (runtimes acc !! runtime pn) as [l|] eqn:Hl; [|discriminate].
    intros [= <-]. exists pn. simpl. repeat split. eauto.
Qed.


Lemma treeInv_newBlock acc p h nr acc' :
  treeInv (blocks acc) -> fresh acc h = true ->
  reduce acc (NewBlock p h nr) = Ok acc' -> treeInv (blocks acc').
Proof.
  intros (HK & [HA HB] & HH) Hfresh Hred.
  apply fresh_spec in Hfresh as [Hh Hnames].
  assert (h <> p) as Hne.
  { intros ->. apply reduce_newBlock in Hred as (pn & Hp & _). congruence. }
  pose proof (reduce_hashKeyed _ _ _ HK Hred) as HK'.
  destruct (newBlock_blocks _ _ _ _ _ Hred Hne) as (pn & Hp & Hnew & Hold).
  split; [exact HK'|]. split; [split|].
  - intros q bq' c Hq Hc. destruct (decide (q = h)) as [->|Hqh].
    { rewrite Hnew in Hq. injection Hq as <-. simpl in Hc.
      exfalso. exact (not_elem_of_empty c Hc). }
    rewrite (Hold q Hqh) in Hq. apply fmap_Some in Hq as (bq & Hq & ->).
    simpl in Hc. apply elem_of_union in Hc as [Hc|Hc].
    + destruct (HA _ _ _ Hq Hc) as (bc & Hbc & Hpar).
      assert (c <> h) as Hch by congruence.
      rewrite (Hold c Hch), Hbc. simpl. eexists. split; [reflexivity|]. exact Hpar.
    + destruct (decide (q = p)) as [->|]; [|exfalso; exact (not_elem_of_empty c Hc)].
      apply elem_of_singleton in Hc as ->. rewrite Hnew. eexists.
      split; [reflexivity|]. reflexivity.
  - intros c bc' bp' Hc Hpar. destruct (decide (c = h)) as [->|Hch].
    { rewrite Hnew in Hc. injection Hc as <-. simpl in Hpar.
      rewrite (Hold p (not_eq_sym Hne)), Hp in Hpar. simpl in Hpar.
      injection Hpar as <-. simpl. rewrite decide_True by reflexivity.
      apply elem_of_union. right. apply elem_of_singleton. reflexivity. }
    rewrite (Hold c Hch) in Hc. apply fmap_Some in Hc as (bc & Hc & ->).
    simpl in Hpar. destruct (Hnames _ _ Hc) as [Hph _].
    rewrite (Hold _ Hph) in Hpar. apply fmap_Some in Hpar as (bp & Hbp & ->).
    simpl. apply elem_of_union. left. exact (HB _ _ _ Hc Hbp).
  - intros c bc' bp' Hc Hpar. destruct (decide (c = h)) as [->|Hch].
    { rewrite Hnew in Hc. injection Hc as <-. simpl in Hpar.
      rewrite (Hold p (not_eq_sym Hne)), Hp in Hpar. simpl in Hpar.
      injection Hpar as <-. reflexivity. }
    rewrite (Hold c Hch) in Hc. apply fmap_Some in Hc as (bc & Hc & ->).
    simpl in Hpar. destruct (Hnames _ _ Hc) as [Hph _].
    rewrite (Hold _ Hph) in Hpar. apply fmap_Some in Hpar as (bp & Hbp & ->).
    simpl. exact (HH _ _ _ Hc Hbp).
Qed.

Lemma treeInv_unpin (m : gmap string PinnedBlock) hs :
  treeInv m -> treeInv (foldl unpinBlock m hs).
Proof.
  intros (HK & [HA HB] & HH).
  assert (forall k b', foldl unpinBlock m hs !! k = Some b' ->
            (k ∉ hs) /\ exists b, m !! k = Some b /\
              b' = withChildren b (children b ∖ strippedFrom m hs k)) as Hkept.
  { intros k b'. rewrite unpinAll_closed.
    destruct (decide (k ∈ hs)); [discriminate|]. intros Hb.
    apply fmap_Some in Hb as (b & Hb & ->). eauto. }
  split; [|split; [split|]].
  - intros k b' Hb. apply Hkept in Hb as (_ & b & Hb & ->). exact (HK _ _ Hb).
  - intros q bq' c Hq Hc. apply Hkept in Hq as (Hqn & bq & Hq & ->).
    simpl in Hc. apply elem_of_difference in Hc as [Hc Hns].
    destruct (HA _ _ _ Hq Hc) as (bc & Hbc & Hpar).
    assert (c ∉ hs) as Hcn.
    { intros Hin. apply Hns. apply strippedFrom_elem. rewrite Hbc. simpl.
      split; [exact Hin | congruence]. }
    rewrite unpinAll_closed, decide_False, Hbc by exact Hcn. simpl.
    eexists. split; [reflexivity | exact Hpar].
  - intros c bc' bp' Hc Hpar. apply Hkept in Hc as (Hcn & bc & Hc & ->).
    simpl in Hpar. apply Hkept in Hpar as (Hpn & bp & Hbp & ->). simpl.
    apply elem_of_difference. split; [exact (HB _ _ _ Hc Hbp)|].
    rewrite strippedFrom_elem. tauto.
  - intros c bc' bp' Hc Hpar. apply Hkept in Hc as (Hcn & bc & Hc & ->).
    simpl in Hpar. apply Hkept in Hpar as (Hpn & bp & Hbp & ->). simpl.
    exact (HH _ _ _ Hc Hbp).
Qed.

Lemma treeInv_blockUsage (m : gmap string PinnedBlock) h b n :
  treeInv m -> m !! h = Some b -> treeInv (<[h := withRefCount b n]> m).
Proof.
  intros (HK & [HA HB] & HH) Hb.
  assert (forall k b', <[h := withRefCount b n]> m !! k = Some b' ->
            exists b0 n0, m !! k = Some b0 /\ b' = withRefCount b0 n0) as Hsame.
  { intros k b'. destruct (decide (k = h)) as [->|Hne].
    - rewrite lookup_insert_eq. intros [= <-]. eauto.
    - rewrite lookup_insert_ne by congruence. intros Hk. exists b', (refCount b').
      split; [exact Hk|]. destruct b'; reflexivity. }
  assert (forall k b0, m !! k = Some b0 ->
            exists n0, <[h := withRefCount b n]> m !! k = Some (withRefCount b0 n0))
    as Hback.
  { intros k b0 Hk. destruct (decide (k = h)) as [->|Hne].
    - rewrite lookup_insert_eq. assert (b0 = b) as -> by congruence. eauto.
    - rewrite lookup_insert_ne by congruence. exists (refCount b0).
      rewrite Hk. destruct b0; reflexivity. }
  split; [|split; [split|]].
  - intros k b' Hk. apply Hsame in Hk as (b0 & n0 & Hk & ->). exact (HK _ _ Hk).
  - intros q bq' c Hq Hc. apply Hsame in Hq as (bq & n0 & Hq & ->). simpl in Hc.
    destruct (HA _ _ _ Hq Hc) as (bc & Hbc & Hpar).
    destruct (Hback _ _ Hbc) as (n1 & Hbc'). eexists.
    split; [exact Hbc'|]. exact Hpar.
  - intros c bc' bp' Hc Hpar. apply Hsame in Hc as (bc & n0 & Hc & ->).
    simpl in Hpar. apply Hsame in Hpar as (bp & n1 & Hbp & ->). simpl.
    exact (HB _ _ _ Hc Hbp).
  - intros c bc' bp' Hc Hpar. apply Hsame in Hc as (bc & n0 & Hc & ->).
    simpl in Hpar. apply Hsame in Hpar as (bp & n1 & Hbp & ->). simpl.
    exact (HH _ _ _ Hc Hbp).
Qed.


Lemma runtimesExact_runs acc :
  runtimesExact acc <->
  (forall k k' l, runtimes acc !! k = Some l -> runtimes acc !! k' = Some l -> k = k') /\
  (forall x k, runs (blocks acc) x k -> is_Some (runtimes acc !! k)) /\
  (forall k l, runtimes acc !! k = Some l ->
     exists r, registry acc !! l = Some r /\ usages r <> ∅ /\
               forall x, x ∈ usages r <-> runs (blocks acc) x k).
Proof.
  unfold runtimesExact, runs. split; intros (HI & HS & HT); repeat split; try assumption.
  - intros x k (b & Hb & <-). exact (HS _ _ Hb).
  - intros x b Hb. apply (HS x). eauto.
Qed.

Lemma runs_newBlock acc p h nr acc' pn :
  fresh acc h = true -> reduce acc (NewBlock p h nr) = Ok acc' ->
  blocks acc !! p = Some pn ->
  forall x k,
    runs (blocks acc') x k <->
    (x = h /\ k = (if nr then h else runtime pn)) \/
    (x <> h /\ runs (blocks acc) x k).
Proof.
  intros Hfresh Hred Hp x k. apply fresh_spec in Hfresh as [Hh _].
  assert (h <> p) as Hne by congruence.
  destruct (newBlock_blocks _ _ _ _ _ Hred Hne) as (pn' & Hp' & Hnew & Hold).
  assert (pn' = pn) as -> by congruence. unfold runs.
  destruct (decide (x = h)) as [->|Hx].
  - rewrite Hnew. split.
    + intros (b & [= <-] & <-). left. split; reflexivity.
    + intros [[_ ->]|[? _]]; [|congruence]. eexists. split; reflexivity.
  - rewrite (Hold x Hx). split.
    + intros (b' & Hb & <-). apply fmap_Some in Hb as (b & Hb & ->). right.
      split; [exact Hx|]. exists b. split; [exact Hb | reflexivity].
    + intros [[? _]|[_ (b & Hb & <-)]]; [congruence|]. rewrite Hb. simpl.
      eexists. split; reflexivity.
Qed.

Lemma runs_unpin (m : gmap string PinnedBlock) hs x k :
  runs (foldl unpinBlock m hs) x k <-> (x ∉ hs) /\ runs m x k.
Proof.
  unfold runs. rewrite unpinAll_closed. destruct (decide (x ∈ hs)) as [Hin|Hnin].
  - split; [intros (b & ? & _); discriminate | tauto].
  - split.
    + intros (b' & Hb & <-). apply fmap_Some in Hb as (b & Hb & ->).
      split; [exact Hnin|]. exists b. split; [exact Hb | reflexivity].
    + intros [_ (b & Hb & <-)]. rewrite Hb. simpl. eexists. split; reflexivity.
Qed.

Lemma runs_blockUsage (m : gmap string PinnedBlock) h b n x k :
  m !! h = Some b -> runs (<[h := withRefCount b n]> m) x k <-> runs m x k.
Proof.
  intros Hb. unfold runs. destruct (decide (x = h)) as [->|Hne].
  - rewrite lookup_insert_eq, Hb. split; intros (b' & [= <-] & <-); eauto.
  - rewrite lookup_insert_ne by congruence. reflexivity.
Qed.

Lemma runtimesExact_same acc acc' :
  runtimes acc' = runtimes acc -> registry acc' = registry acc ->
  (forall x k, runs (blocks acc') x k <-> runs (blocks acc) x k) ->
  runtimesExact acc -> runtimesExact acc'.
Proof.
  intros Hrt Hrg Hruns. rewrite !runtimesExact_runs, Hrt, Hrg.
  intros (HI & HS & HT). split; [exact HI|]. split.
  - intros x k Hx. apply (HS x). apply Hruns. exact Hx.
  - intros k l Hk. destruct (HT k l Hk) as (r & Hl & Hne & Hu).
    exists r. split; [exact Hl|]. split; [exact Hne|].
    intros x. rewrite Hu, Hruns. reflexivity.
Qed.

Lemma runtimesExact_newBlock acc p h nr acc' :
  runtimesExact acc -> fresh acc h = true ->
  reduce acc (NewBlock p h nr) = Ok acc' -> runtimesExact acc'.
Proof.
  intros Hex Hfresh Hred. pose proof Hfresh as Hf.
  apply fresh_spec in Hf as [Hh Hnames].
  destruct (newBlock_runtimes _ _ _ _ _ Hred) as (pn & Hp & _ & _ & _ & Hcase).
  pose proof (runs_newBlock _ _ _ _ _ _ Hfresh Hred Hp) as Hruns.
  apply runtimesExact_runs in Hex as (HI & HS & HT). apply runtimesExact_runs.
  assert (forall x, ~ runs (blocks acc) x h) as Hnone.
  { intros x (b & Hb & Hr). destruct (Hnames _ _ Hb) as [_ Hrn]. contradiction. }
  assert (forall k l, runtimes acc !! k = Some l -> (l < length (registry acc))%nat)
    as Hvalid.
  { intros k l Hk. destruct (HT k l Hk) as (r & Hl & _).
    apply lookup_lt_Some in Hl. exact Hl. }
  destruct nr; destruct Hcase as [Hrt Hrg].
  - rewrite Hrt, Hrg. split; [|split].
    + intros k k' l Hk Hk'.
      destruct (decide (k = h)) as [->|Hkh], (decide (k' = h)) as [->|Hkh'];
        try reflexivity.
      * rewrite lookup_insert_eq in Hk. injection Hk as <-.
        rewrite lookup_insert_ne in Hk' by congruence.
        apply Hvalid in Hk'. lia.
      * rewrite lookup_insert_eq in Hk'. injection Hk' as <-.
        rewrite lookup_insert_ne in Hk by congruence.
        apply Hvalid in Hk. lia.
      * rewrite lookup_insert_ne in Hk, Hk' by congruence. exact (HI _ _ _ Hk Hk').
    + intros x k Hx. apply Hruns in Hx as [[_ ->]|[_ Hx]].
      * rewrite lookup_insert_eq. eauto.
      * destruct (decide (k = h)) as [->|Hkh]; [exfalso; exact (Hnone _ Hx)|].
        rewrite lookup_insert_ne by congruence. exact (HS _ _ Hx).
    + intros k l Hk. destruct (decide (k = h)) as [->|Hkh].
      * rewrite lookup_insert_eq in Hk. injection Hk as <-.
        rewrite lookup_app_r, Nat.sub_diag by lia. simpl. eexists.
        split; [reflexivity|]. simpl. split; [set_solver|].
        intros x. rewrite Hruns. split.
        -- intros Hx. left. split; [set_solver | reflexivity].
        -- intros [[-> _]|[_ Hx]]; [set_solver | exfalso; exact (Hnone _ Hx)].
      * rewrite lookup_insert_ne in Hk by congruence.
        destruct (HT k l Hk) as (r & Hl & Hne & Hu).
        rewrite lookup_app_l by (apply (Hvalid k); exact Hk).
        exists r. split; [exact Hl|]. split; [exact Hne|].
        intros x. rewrite Hu, Hruns. split; [|intros [[_ ?]|[_ ?]]; [congruence|assumption]].
        intros Hx. right. split; [|exact Hx].
        intros ->. destruct Hx as (b & Hb & _). congruence.
  - destruct Hrg as (l0 & Hl0 & Hrg). rewrite Hrt, Hrg. split; [exact HI|]. split.
    + intros x k Hx. apply Hruns in Hx as [[_ ->]|[_ Hx]]; [eauto | exact (HS _ _ Hx)].
    + intros k l Hk. destruct (HT k l Hk) as (r & Hl & Hne & Hu).
      destruct (decide (l = l0)) as [->|Hll].
      * assert (k = runtime pn) as -> by exact (HI _ _ _ Hk Hl0).
        rewrite list_lookup_alter_eq, Hl. simpl. eexists. split; [reflexivity|].
        simpl. split; [set_solver|]. intros x. rewrite elem_of_union, Hu, Hruns.
        rewrite elem_of_singleton. split.
        -- intros [Hx| ->]; [|left; split; reflexivity].
           right. split; [|exact Hx]. intros ->. destruct Hx as (b & Hb & _). congruence.
        -- intros [[-> _]|[_ Hx]]; [right; reflexivity | left; exact Hx].
      * rewrite list_lookup_alter_ne by congruence.
        exists r. split; [exact Hl|]. split; [exact Hne|].
        intros x. rewrite Hu, Hruns. split.
        -- intros Hx. right. split; [|exact Hx].
           intros ->. destruct Hx as (b & Hb & _). congruence.
        -- intros [[_ ->]|[_ Hx]]; [|exact Hx].
           exfalso. apply Hll. rewrite Hk in Hl0. congruence.
Qed.

Lemma runtimesExact_unpin acc hs acc' :
  runtimesExact acc -> reduce acc (Unpin hs) = Ok acc' -> runtimesExact acc'.
Proof.
  intros Hex Hred.
  destruct (reduce_unpin acc hs) as (a & E & _ & _ & _ & Hbl & Hrt & Hin & _).
  rewrite E in Hred. injection Hred as ->.
  apply runtimesExact_runs in Hex as (HI & HS & HT). apply runtimesExact_runs.
  assert (forall k l, runtimes acc' !! k = Some l ->
            runtimes acc !! k = Some l /\
            countAfter hs (registry acc) l <> Some 0%nat) as Hsurv.
  { intros k l Hk. rewrite Hrt in Hk.
    destruct (runtimes acc !! k) as [l'|]; [|discriminate].
    destruct (decide (countAfter hs (registry acc) l' = Some 0%nat)); [discriminate|].
    injection Hk as ->. split; [reflexivity | assumption]. }
  rewrite Hbl. split; [|split].
  - intros k k' l Hk Hk'. apply Hsurv in Hk as [Hk _]. apply Hsurv in Hk' as [Hk' _].
    exact (HI _ _ _ Hk Hk').
  - intros x k Hx. apply runs_unpin in Hx as [Hnin Hx].
    destruct (HS _ _ Hx) as [l Hk]. destruct (HT k l Hk) as (r & Hl & _ & Hu).
    rewrite Hrt, Hk. rewrite decide_False; [eauto|].
    intros Hz. apply countAfter_zero in Hz as (r' & Hl' & Hall).
    assert (r' = r) as -> by congruence. apply Hnin, Hall, Hu. exact Hx.
  - intros k l Hk. destruct (Hsurv k l Hk) as [Hk0 Hnz].
    destruct (HT k l Hk0) as (r & Hl & _ & Hu).
    rewrite (Hin k l Hk0), Hl. simpl. eexists. split; [reflexivity|].
    assert (forall x, x ∈ usages (deleteBlocks hs r) <-> (x ∉ hs) /\ x ∈ usages r) as Hdel.
    { intros x. simpl. rewrite elem_of_difference, elem_of_list_to_set. tauto. }
    split.
    + intros Hempty. apply Hnz. apply countAfter_zero. exists r. split; [exact Hl|].
      intros x Hx. destruct (decide (x ∈ hs)) as [|Hn]; [assumption|].
      exfalso. apply (not_elem_of_empty (C := gset string) x). rewrite <- Hempty.
      apply Hdel. tauto.
    + intros x. rewrite Hdel, Hu, runs_unpin. reflexivity.
Qed.

Lemma finalizedInSync_kept acc acc' :
  finalized acc' = finalized acc -> finalizedRuntime acc' = finalizedRuntime acc ->
  (forall x k, runs (blocks acc) x k -> runs (blocks acc') x k) ->
  (forall x b l, blocks acc !! x = Some b -> runtimes acc !! runtime b = Some l ->
                 runs (blocks acc') x (runtime b) ->
                 runtimes acc' !! runtime b = Some l) ->
  finalizedInSync acc -> finalizedInSync acc'.
Proof.
  intros Hf Hr Hruns Hrt (bf & l & Hbf & Hl & Hfr).
  destruct (Hruns (finalized acc) (runtime bf)) as (bf' & Hbf' & Hrun); [exists bf; tauto|].
  exists bf', l. rewrite Hf, Hr. split; [exact Hbf'|]. split; [|exact Hfr].
  rewrite Hrun. apply (Hrt (finalized acc) bf l Hbf Hl).
  exists bf'. tauto.
Qed.

Lemma wellFormed_initialized h n ph acc :
  h <> ph -> reduce seed (Initialized h n ph) = Ok acc -> wellFormed acc.
Proof.
  intros Hne [= <-]. unfold wellFormed. simpl.
  set (node := mkPinnedBlock h n ph ∅ h 0).
  assert (forall k b, <[h := node]> (∅ : gmap string PinnedBlock) !! k = Some b ->
                      k = h /\ b = node) as Honly.
  { intros k b. destruct (decide (k = h)) as [->|Hk].
    - rewrite lookup_insert_eq. intros [= <-]. tauto.
    - rewrite lookup_insert_ne, lookup_empty by congruence. discriminate. }
  split; [|split; [split|split; [|split]]].
  - intros k b Hb. apply Honly in Hb as [-> ->]. reflexivity.
  - intros p bp c Hp Hc. apply Honly in Hp as [-> ->]. simpl in Hc.
    exfalso. exact (not_elem_of_empty c Hc).
  - intros c bc bp Hc Hp. apply Honly in Hc as [-> ->]. simpl in Hp.
    apply Honly in Hp as [? _]. congruence.
  - intros c bc bp Hc Hp. apply Honly in Hc as [-> ->]. simpl in Hp.
    apply Honly in Hp as [? _]. congruence.
  - apply runtimesExact_runs. simpl. split; [|split].
    + intros k k' l. destruct (decide (k = h)) as [->|Hk];
        [|rewrite lookup_insert_ne, lookup_empty by congruence; discriminate].
      destruct (decide (k' = h)) as [->|Hk']; [reflexivity|].
      rewrite (lookup_insert_ne _ h k'), lookup_empty by congruence. discriminate.
    + intros x k (b & Hb & <-). apply Honly in Hb as [-> ->]. simpl.
      rewrite lookup_insert_eq. eauto.
    + intros k l. destruct (decide (k = h)) as [->|Hk];
        [|rewrite lookup_insert_ne, lookup_empty by congruence; discriminate].
      rewrite lookup_insert_eq. intros [= <-]. simpl. eexists.
      split; [reflexivity|]. simpl. split; [set_solver|].
      intros x. rewrite elem_of_singleton. split.
      * intros ->. exists node. rewrite lookup_insert_eq. tauto.
      * intros (b & Hb & _). apply Honly in Hb. tauto.
  - exists node, 0%nat. simpl. rewrite !lookup_insert_eq. tauto.
Qed.

Lemma wellFormed_event acc e acc' :
  wellFormed acc -> admissible acc e = true -> reduce acc e = Ok acc' ->
  wellFormed acc'.
Proof.
  intros (HK & HC & HH & HR & HF) Hadm Hred.
  assert (treeInv (blocks acc)) as Htree by (split; [|split]; assumption).
  destruct e as [h n p|p h nr|h|hs|v h|hs]; try discriminate Hadm.
  - simpl in Hadm.
    destruct (treeInv_newBlock _ _ _ _ _ Htree Hadm Hred) as (HK' & HC' & HH').
    pose proof (runtimesExact_newBlock _ _ _ _ _ HR Hadm Hred) as HR'.
    split; [exact HK'|]. split; [exact HC'|]. split; [exact HH'|]. split; [exact HR'|].
    destruct (newBlock_runtimes _ _ _ _ _ Hred) as (pn & Hp & _ & Hfin & Hfr & Hcase).
    pose proof (runs_newBlock _ _ _ _ _ _ Hadm Hred Hp) as Hruns.
    apply fresh_spec in Hadm as [Hh Hnames].
    apply (finalizedInSync_kept acc); try assumption.
    + intros x k Hx. apply Hruns. right. split; [|exact Hx].
      intros ->. destruct Hx as (b & Hb & _). congruence.
    + intros x b l Hb Hl _. destruct nr.
      * destruct Hcase as [-> _]. destruct (Hnames _ _ Hb) as [_ Hrn].
        rewrite lookup_insert_ne by congruence. exact Hl.
      * destruct Hcase as [-> _]. exact Hl.
  - simpl in Hred. injection Hred as <-. unfold wellFormed. simpl. tauto.
  - simpl in Hred. destruct (last hs) as [f|]; [|discriminate].
    destruct (blocks acc !! f) as [b|] eqn:Hb; [|discriminate].
    injection Hred as <-. unfold wellFormed. simpl.
    split; [exact HK|]. split; [exact HC|]. split; [exact HH|]. split; [exact HR|].
    destruct HR as (_ & HS & _). destruct (HS _ _ Hb) as [l Hl].
    exists b, l. simpl. rewrite Hl. tauto.
  - simpl in Hred. destruct (blocks acc !! h) as [b|] eqn:Hb; [|discriminate].
    injection Hred as <-.
    destruct (treeInv_blockUsage _ h b
                (refCount b + match v with Hold => 1 | Release => -1 end) Htree Hb)
      as (HK' & HC' & HH').
    unfold wellFormed. simpl.
    split; [exact HK'|]. split; [exact HC'|]. split; [exact HH'|]. split.
    + apply (runtimesExact_same acc); try reflexivity; [|exact HR].
      intros x k. simpl. apply runs_blockUsage. exact Hb.
    + apply (finalizedInSync_kept acc); try reflexivity; [| |exact HF].
      * intros x k Hx. simpl. apply runs_blockUsage; assumption.
      * intros x b0 l _ Hl _. exact Hl.
Qed.

Lemma wellFormed_unpin acc hs acc' :
  wellFormed acc -> finalized acc ∉ hs -> reduce acc (Unpin hs) = Ok acc' ->
  wellFormed acc'.
Proof.
  intros (HK & HC & HH & HR & HF) Hfin Hred.
  pose proof (runtimesExact_unpin _ _ _ HR Hred) as HR'.
  destruct (reduce_unpin acc hs) as (a & E & _ & Hf & Hfr & Hbl & Hrt & _).
  rewrite E in Hred. injection Hred as ->.
  destruct (treeInv_unpin (blocks acc) hs) as (HK' & HC' & HH');
    [split; [|split]; assumption|].
  unfold wellFormed. rewrite Hbl.
  split; [exact HK'|]. split; [exact HC'|]. split; [exact HH'|]. split; [exact HR'|].
  destruct HF as (bf & l & Hbf & Hl & Hfrt).
  assert (runs (blocks acc') (finalized acc) (runtime bf)) as Hrun.
  { rewrite Hbl. apply runs_unpin. split; [exact Hfin|]. exists bf. tauto. }
  destruct Hrun as (bf' & Hbf' & Hrun).
  apply runtimesExact_runs in HR' as (_ & HS' & _).
  destruct (HS' (finalized acc) (runtime bf)) as [l' Hl']; [exists bf'; tauto|].
  exists bf', l. rewrite Hf, Hfr. split; [exact Hbf'|]. split; [|exact Hfrt].
  rewrite Hrun. rewrite Hl'. rewrite Hrt, Hl in Hl'.
  destruct (decide (countAfter hs (registry acc) l = Some 0%nat)); congruence.
Qed.

Lemma conforming_reachable c : conforming c -> reachable c.
Proof.
  induction 1 as [h n ph c Hne Hd|c e c' _ IH Hadm Hd|c fuel c' out _ IH Ht].
  - apply (reach_event start (Initialized h n ph)); [apply reach_start|reflexivity|exact Hd].
  - apply (reach_event c e); [exact IH| |exact Hd].
    destruct e; try reflexivity. discriminate Hadm.
  - exact (reach_tick _ _ _ _ IH Ht).
Qed.

(** On a conforming stream the accumulator is well formed and a snapshot is
    published. *)
Lemma conforming_wellFormed c :
  conforming c -> wellFormed (acc c) /\ is_Some (latest c).
Proof.
  induction 1 as [h n ph c Hne Hd|c e c' Hc [IH Hlat] Hadm Hd|c fuel c' out Hc [IH Hlat] Ht].
  - apply deliver_inv in Hd as (Hred & -> & _). split; [|eauto].
    exact (wellFormed_initialized _ _ _ _ Hne Hred).
  - apply deliver_inv in Hd as (Hred & -> & _). split; [|eauto].
    exact (wellFormed_event _ _ _ IH Hadm Hred).
  - pose proof (reachable_inv _ (conforming_reachable _ Hc)) as Hinv.
    pose proof (tick_spares_descendants _ _ _ _ (finalized (acc c)) Hinv Ht
                  (rtc_refl _ _)) as Hspared.
    apply tick_inv in Ht as [(_ & -> & _) | (p & cur & _ & _ & _ & _ & Hcase)];
      [tauto|].
    destruct Hcase as [(_ & -> & ->) | (_ & Hred & ->)]; [tauto|].
    split; [|eauto]. exact (wellFormed_unpin _ _ _ IH Hspared Hred).
Qed.

Lemma admissibleRun_conforming events : forall c c',
  conforming c -> admissibleRun c events = true ->
  deliverAll c events = Returns c' -> conforming c'.
Proof.
  induction events as [|e rest IH]; intros c c' Hc Hrun Hd; simpl in *.
  - injection Hd as <-. exact Hc.
  - apply andb_true_iff in Hrun as [Hadm Hrest].
    destruct (deliver c e) as [c1| |] eqn:Hd1; try discriminate.
    apply (IH c1); [|assumption..]. exact (conf_event c e c1 Hc Hadm Hd1).
Qed.

Lemma initializedAtA_conforming : conforming initializedAtA.
Proof.
  apply (conf_initialized "A" 0 "P"); [discriminate | reflexivity].
Qed.

Lemma tracking_conforming : conforming tracking.
Proof.
  apply (admissibleRun_conforming (tail chain) initializedAtA);
    [apply initializedAtA_conforming | vm_compute; reflexivity..].
Qed.

Lemma tickedOnce_conforming : conforming tickedOnce.
Proof.
  apply (conf_tick tracking 3 tickedOnce []); [apply tracking_conforming|].
  vm_compute. reflexivity.
Qed.

Lemma reduce_throws_exactly_newBlock acc p h nr :
  reduce acc (NewBlock p h nr) = TypeError <->
  match blocks acc !! p with
  | None => True
  | Some pn => nr = false /\ runtimes acc !! runtime pn = None
  end.
Proof.
  simpl. destruct (blocks acc !! p) as [pn|]; [|tauto].
  destruct nr; simpl.
  - rewrite lookup_insert_eq. split; [discriminate | intros [? _]; discriminate].
  - destruct (runtimes acc !! runtime pn); split; try tauto; try discriminate.
    intros [_ ?]. discriminate.
Qed.

(** X8.  On a conforming stream the blocks form a tree whose links agree: every
    node is stored under its own hash; the children of a tracked block are
    tracked and name it as their parent; a tracked block whose parent is
    tracked is among that parent's children; and a tracked block is one
    higher than its tracked parent. *)
Theorem conforming_blocks_form_a_tree c :
  conforming c ->
  hashKeyed (blocks (acc c)) /\ childrenAgree (blocks (acc c)) /\
  heightsStep (blocks (acc c)).
Proof.
  intros Hc. destruct (conforming_wellFormed c Hc) as [(HK & HC & HH & _) _]. tauto.
Qed.

Lemma conforming_blocks_form_a_tree_witness :
  hashKeyed (blocks (acc tickedOnce)) /\ childrenAgree (blocks (acc tickedOnce)) /\
  heightsStep (blocks (acc tickedOnce)).
Proof. apply (conforming_blocks_form_a_tree tickedOnce). exact tickedOnce_conforming. Defined.

(** X9.  On a conforming stream the runtimes are accounted for exactly: a key is
    in [runtimes] exactly when some tracked block runs that runtime; the
    usages of its Runtime object are exactly the tracked blocks that run it;
    and [finalized] is tracked, with [finalizedRuntime] the Runtime object of
    its runtime. *)
Theorem conforming_runtimes_are_exact c :
  conforming c ->
  (forall k, is_Some (runtimes (acc c) !! k) <->
             exists x b, blocks (acc c) !! x = Some b /\ runtime b = k) /\
  (forall k l, runtimes (acc c) !! k = Some l ->
     exists r, registry (acc c) !! l = Some r /\
               forall x, x ∈ usages r <->
                         exists b, blocks (acc c) !! x = Some b /\ runtime b = k) /\
  finalizedInSync (acc c).
Proof.
  intros Hc. destruct (conforming_wellFormed c Hc) as [(_ & _ & _ & HR & HF) _].
  destruct HR as (_ & HS & HT). split; [|split; [|exact HF]].
  - intros k. split.
    + intros [l Hk]. destruct (HT k l Hk) as (r & _ & Hne & Hu).
      apply set_choose_L in Hne as [x Hx]. exists x. apply Hu. exact Hx.
    + intros (x & b & Hb & <-). exact (HS _ _ Hb).
  - intros k l Hk. destruct (HT k l Hk) as (r & Hl & _ & Hu). eauto.
Qed.

Lemma conforming_runtimes_are_exact_witness :
  (forall k, is_Some (runtimes (acc tickedOnce) !! k) <->
             exists x b, blocks (acc tickedOnce) !! x = Some b /\ runtime b = k) /\
  (forall k l, runtimes (acc tickedOnce) !! k = Some l ->
     exists r, registry (acc tickedOnce) !! l = Some r /\
               forall x, x ∈ usages r <->
                         exists b, blocks (acc tickedOnce) !! x = Some b /\ runtime b = k) /\
  finalizedInSync (acc tickedOnce).
Proof. apply (conforming_runtimes_are_exact tickedOnce). exact tickedOnce_conforming. Defined.

(** X10.  On a conforming stream no lookup of a runtime misses: a [newBlock]
    throws exactly when its parent is not tracked, and a [finalized] that is
    folded leaves in [finalizedRuntime] a Runtime object of the registry,
    never [undefined]. *)
Theorem conforming_runtime_lookups_hit c :
  conforming c ->
  (forall p h nr,
     reduce (acc c) (NewBlock p h nr) = TypeError <-> blocks (acc c) !! p = None) /\
  (forall hs acc',
     reduce (acc c) (Finalized hs) = Ok acc' ->
     exists l r, finalizedRuntime acc' = runtimeAt l /\ registry acc' !! l = Some r).
Proof.
  intros Hc. destruct (conforming_wellFormed c Hc) as [(_ & _ & _ & HR & _) _].
  destruct HR as (_ & HS & HT). split.
  - intros p h nr. rewrite reduce_throws_exactly_newBlock.
    destruct (blocks (acc c) !! p) as [pn|] eqn:Hp; [|tauto].
    split; [|discriminate]. intros [_ Hnone].
    destruct (HS _ _ Hp) as [l Hl]. congruence.
  - intros hs acc' Hred. simpl in Hred.
    destruct (last hs) as [f|]; [|discriminate].
    destruct (blocks (acc c) !! f) as [b|] eqn:Hb; [|discriminate].
    injection Hred as <-. simpl. destruct (HS _ _ Hb) as [l Hl]. rewrite Hl.
    destruct (HT _ _ Hl) as (r & Hr & _). eauto.
Qed.

Lemma conforming_runtime_lookups_hit_witness :
  (forall p h nr,
     reduce (acc tickedOnce) (NewBlock p h nr) = TypeError <->
     blocks (acc tickedOnce) !! p = None) /\
  (forall hs acc',
     reduce (acc tickedOnce) (Finalized hs) = Ok acc' ->
     exists l r, finalizedRuntime acc' = runtimeAt l /\ registry acc' !! l = Some r).
Proof. apply (conforming_runtime_lookups_hit tickedOnce). exact tickedOnce_conforming. Defined.

(** ** The cleaner on a conforming stream *)

Lemma heights_fall (m : gmap string PinnedBlock) k a :
  heightsStep m -> ancestorOf m k a ->
  exists bk ba, m !! k = Some bk /\ m !! a = Some ba /\ number ba < number bk.
Proof.
  intros HH Hanc. induction Hanc as [k a Hstep|k y a Hstep _ IH].
  - destruct Hstep as (bk & Hk & <- & [bp Hp]). exists bk, bp.
    split; [exact Hk|]. split; [exact Hp|]. rewrite (HH _ _ _ Hk Hp). lia.
  - destruct Hstep as (bk & Hk & <- & [bp Hp]).
    destruct IH as (by' & ba & Hy & Ha & Hlt). exists bk, ba.
    split; [exact Hk|]. split; [exact Ha|].
    assert (by' = bp) as -> by congruence. rewrite (HH _ _ _ Hk Hp). lia.
Qed.

Lemma heights_acyclic (m : gmap string PinnedBlock) k :
  heightsStep m -> acyclicFrom m k.
Proof.
  intros HH a _ Hcyc. destruct (heights_fall m a a HH Hcyc) as (b & b' & Hb & Hb' & Hlt).
  assert (b' = b) as -> by congruence. lia.
Qed.

Lemma tick_returns_when_collect_does fuel c p cur :
  latest c = Some p -> collect fuel (read p (acc c)) = Returns cur ->
  exists c' out, tick fuel c = Returns (c', out).
Proof.
  intros Hl Hc. unfold tick. rewrite Hl, Hc.
  destruct (previous c) as [prev|]; [|eauto].
  destruct (confirmed prev cur) as [|x hashes]; [eauto|].
  unfold deliver. cbn [acc].
  destruct (reduce_unpin (acc c) (x :: hashes)) as (a & -> & _). eauto.
Qed.

(** X11.  On a conforming stream the cleaner neither throws nor loops: a tick with
    one more turn than there are tracked blocks returns, and no tick throws,
    however few turns it is given. *)
Theorem conforming_ticks_return c :
  conforming c ->
  (exists c' out, tick (S (size (dom (blocks (acc c))))) c = Returns (c', out)) /\
  (forall fuel, tick fuel c <> Throws).
Proof.
  intros Hc. destruct (conforming_wellFormed c Hc) as [(_ & _ & HH & _ & HF) [p Hp]].
  destruct (reachable_inv _ (conforming_reachable _ Hc)) as [_ Hs].
  pose proof (Hs _ Hp) as ->. destruct HF as (bf & _ & Hbf & _).
  split.
  - destruct (collect_terminates (acc c)) as [cur Hcur];
      [eauto | apply heights_acyclic; exact HH|].
    apply (tick_returns_when_collect_does _ _ (publish (acc c)) cur Hp).
    rewrite read_publish. exact Hcur.
  - intros fuel. unfold tick. rewrite Hp, read_publish.
    destruct (collect fuel (acc c)) as [cur| |] eqn:Hcol; [| |discriminate].
    + destruct (previous c) as [prev|]; [|discriminate].
      destruct (confirmed prev cur) as [|x hashes]; [discriminate|].
      unfold deliver. cbn [acc].
      destruct (reduce_unpin (acc c) (x :: hashes)) as (a & -> & _). discriminate.
    + apply collect_throws_iff in Hcol. congruence.
Qed.

Lemma conforming_ticks_return_witness :
  (exists c' out,
     tick (S (size (dom (blocks (acc tickedOnce))))) tickedOnce = Returns (c', out)) /\
  (forall fuel, tick fuel tickedOnce <> Throws).
Proof. apply (conforming_ticks_return tickedOnce). exact tickedOnce_conforming. Defined.

(** ** No block is unpinned twice *)

Lemma quietFor_untracked h c c' :
  quietFor h c c' -> blocks (acc c) !! h = None -> blocks (acc c') !! h = None.
Proof.
  induction 1 as [c|c e c1 c' Hext Htouch Hd _ IH|c fuel c1 out c' Ht _ IH];
    intros Hnone; [exact Hnone| |].
  - apply IH. apply deliver_inv in Hd as (Hred & _).
    pose proof (reduce_untouched _ _ _ h Htouch Hred) as Heq.
    rewrite Hnone in Heq. destruct (blocks (acc c1) !! h); [discriminate|reflexivity].
  - apply IH.
    apply tick_inv in Ht as [(_ & -> & _) | (p & cur & _ & _ & _ & _ & Hcase)];
      [exact Hnone|].
    destruct Hcase as [(_ & -> & _) | (_ & Hred & _)]; [exact Hnone|].
    destruct (reduce_unpin (acc c) out) as (a & E & _ & _ & _ & Hbl & _).
    rewrite E in Hred. injection Hred as ->. rewrite Hbl.
    apply unpinAll_lookup_None. exact Hnone.
Qed.

Lemma quietFor_reachable h c c' : quietFor h c c' -> reachable c -> reachable c'.
Proof.
  induction 1 as [c|c e c1 c' Hext Htouch Hd _ IH|c fuel c1 out c' Ht _ IH];
    intros Hr; [exact Hr| |].
  - apply IH. exact (reach_event _ _ _ Hr Hext Hd).
  - apply IH. exact (reach_tick _ _ _ _ Hr Ht).
Qed.

(** X12.  A hash that a tick has emitted is tracked before that tick and not after
    it, and no later tick emits it again as long as no event announces it
    anew: [onUnpin] is never given the same block twice. *)
Theorem emitted_once c fuel c1 out c2 fuel' c3 out' h :
  reachable c -> tick fuel c = Returns (c1, out) -> h ∈ out ->
  quietFor h c1 c2 -> tick fuel' c2 = Returns (c3, out') ->
  is_Some (blocks (acc c) !! h) /\ blocks (acc c1) !! h = None /\ h ∉ out'.
Proof.
  intros Hr Ht Hh Hquiet Ht'.
  destruct (tick_emits_idle_ancestors _ _ _ _ _ (reachable_inv _ Hr) Ht Hh)
    as (_ & (b & Hb & _) & _ & Hred).
  assert (blocks (acc c1) !! h = None) as Hgone.
  { destruct (reduce_unpin (acc c) out) as (a & E & _ & _ & _ & Hbl & _).
    rewrite E in Hred. injection Hred as ->. rewrite Hbl.
    apply unpinAll_lookup_in. exact Hh. }
  split; [eauto|]. split; [exact Hgone|]. intros Hin.
  assert (reachable c2) as Hr2
    by exact (quietFor_reachable _ _ _ Hquiet (reach_tick _ _ _ _ Hr Ht)).
  destruct (tick_emits_idle_ancestors _ _ _ _ _ (reachable_inv _ Hr2) Ht' Hin)
    as (_ & (b2 & Hb2 & _) & _).
  rewrite (quietFor_untracked _ _ _ Hquiet Hgone) in Hb2. discriminate.
Qed.

Lemma emitted_once_witness :
  is_Some (blocks (acc tickedOnce) !! "A") /\
  blocks (acc tickedTwice) !! "A" = None /\ "A" ∉ @nil string.
Proof.
  apply (emitted_once tickedOnce 3 tickedTwice ["B"; "A"] tickedTwice 3
           (afterTick 3 tickedTwice) [] "A").
  - exact tickedOnce_reachable.
  - exact second_tick_emits.
  - right. left.
  - apply quiet_here.
  - vm_compute. reflexivity.
Defined.

(** ** Announcing a block and unpinning it *)

(** X13.  On a conforming stream, folding a [newBlock] for a fresh hash and then
    an [unpin] of that hash gives back the blocks, the runtimes and the
    pointers as they were before the two events, and every Runtime object
    that was in the registry; when the block took its parent's runtime the
    accumulator is the same in every respect. *)
Theorem newBlock_then_unpin_round_trip c p h nr acc1 :
  conforming c -> fresh (acc c) h = true ->
  reduce (acc c) (NewBlock p h nr) = Ok acc1 ->
  exists acc2,
    reduce acc1 (Unpin [h]) = Ok acc2 /\
    best acc2 = best (acc c) /\ finalized acc2 = finalized (acc c) /\
    finalizedRuntime acc2 = finalizedRuntime (acc c) /\
    blocks acc2 = blocks (acc c) /\ runtimes acc2 = runtimes (acc c) /\
    (forall l r, registry (acc c) !! l = Some r -> registry acc2 !! l = Some r) /\
    (nr = false -> acc2 = acc c).
Proof.
  intros Hc Hfresh Hred.
  destruct (conforming_wellFormed c Hc) as [(HK & [HA HB] & HH & HR & HF) _].
  pose proof Hfresh as Hf. apply fresh_spec in Hf as [Hh Hnames].
  destruct (newBlock_runtimes _ _ _ _ _ Hred) as (pn & Hp & Hbest & Hfin & Hfr & Hcase).
  assert (h <> p) as Hne by congruence.
  destruct (newBlock_blocks _ _ _ _ _ Hred Hne) as (pn' & Hp' & Hnew & Hold).
  assert (pn' = pn) as -> by congruence.
  apply runtimesExact_runs in HR as (HI & HS & HT).
  assert (forall k l r, runtimes (acc c) !! k = Some l ->
            registry (acc c) !! l = Some r -> h ∉ usages r) as Hnotused.
  { intros k l r Hk Hl Hin. destruct (HT k l Hk) as (r' & Hl' & _ & Hu).
    assert (r' = r) as -> by congruence.
    apply Hu in Hin as (b & Hb & _). congruence. }
  assert (forall k l, runtimes (acc c) !! k = Some l -> (l < length (registry (acc c)))%nat)
    as Hvalid.
  { intros k l Hk. destruct (HT k l Hk) as (r & Hl & _).
    apply lookup_lt_Some in Hl. exact Hl. }
  assert (runtimes (acc c) !! h = None) as Hnokey.
  { destruct (runtimes (acc c) !! h) as [l|] eqn:Hk; [|reflexivity].
    destruct (HT h l Hk) as (r & _ & Hnem & Hu).
    apply set_choose_L in Hnem as [x Hx]. apply Hu in Hx as (b & Hb & Hrun).
    destruct (Hnames _ _ Hb). contradiction. }
  assert (forall (r : Runtime), h ∉ usages r -> deleteBlocks [h] r = r) as Hsame.
  { intros r Hn. destruct r as [a u s]. unfold deleteBlocks. simpl in *. f_equal.
    set_solver. }
  assert (forall (r : Runtime), h ∉ usages r -> deleteBlocks [h] (addBlock h r) = r)
    as Hundo.
  { intros r Hn. destruct r as [a u s]. unfold deleteBlocks, addBlock. simpl in *.
    f_equal. set_solver. }
  destruct (reduce_unpin acc1 [h]) as (acc2 & E & Hb2 & Hf2 & Hfr2 & Hbl2 & Hrt2 & Hin2 & Hout2).
  exists acc2. split; [exact E|].
  assert (blocks acc2 = blocks (acc c)) as Eblocks.
  { apply map_eq. intros k. rewrite Hbl2, unpinAll_closed.
    destruct (decide (k = h)) as [->|Hk].
    - rewrite decide_True by left. symmetry. exact Hh.
    - rewrite decide_False by (intros Hin; apply list_elem_of_singleton in Hin; congruence).
      rewrite (Hold k Hk). destruct (blocks (acc c) !! k) as [b|] eqn:Hb; [|reflexivity].
      simpl. f_equal. rewrite withChildren_twice.
      etransitivity; [|apply withChildren_same]. f_equal.
      apply set_eq. intros x. rewrite elem_of_difference, elem_of_union, strippedFrom_elem.
      assert (h ∉ children b) as Hnc.
      { intros Hin. destruct (HA _ _ _ Hb Hin) as (bc & Hbc & _). congruence. }
      rewrite list_elem_of_singleton. split; [|intros Hx; split; [left; exact Hx|]].
      + intros [[Hx|Hx] Hns]; [exact Hx|]. exfalso. apply Hns.
        destruct (decide (k = p)) as [->|]; [|exfalso; exact (not_elem_of_empty x Hx)].
        apply elem_of_singleton in Hx as ->. rewrite Hnew. simpl. tauto.
      + intros [-> _]. contradiction. }
  assert (forall k l, runtimes (acc c) !! k = Some l ->
            exists r, registry (acc c) !! l = Some r /\ usages r <> ∅ /\ h ∉ usages r)
    as Hlive.
  { intros k l Hk. destruct (HT k l Hk) as (r & Hl & Hnem & _).
    exists r. split; [exact Hl|]. split; [exact Hnem|]. exact (Hnotused k l r Hk Hl). }
  assert (forall r, usages r <> ∅ -> usageCount r <> 0%nat) as Hcount.
  { intros r Hnem Hz. apply Hnem. apply leibniz_equiv. apply size_empty_inv. exact Hz. }
  destruct nr.
  - destruct Hcase as [Hrt1 Hrg1].
    assert (runtimes acc2 = runtimes (acc c)) as Eruntimes.
    { apply map_eq. intros k. rewrite Hrt2, Hrt1.
      destruct (decide (k = h)) as [->|Hk].
      - rewrite lookup_insert_eq, Hnokey. rewrite decide_True; [reflexivity|].
        apply countAfter_zero. eexists. split.
        + rewrite Hrg1, lookup_app_r, Nat.sub_diag by lia. reflexivity.
        + intros x Hx. cbn [usages addBlock subscribe getRuntime] in Hx.
          apply list_elem_of_singleton. set_solver.
      - rewrite lookup_insert_ne by congruence.
        destruct (runtimes (acc c) !! k) as [l|] eqn:Hkl; [|reflexivity].
        destruct (Hlive k l Hkl) as (r & Hl & Hnem & Hnu).
        rewrite decide_False; [reflexivity|].
        unfold countAfter. rewrite Hrg1, lookup_app_l by exact (Hvalid k l Hkl).
        rewrite Hl. simpl. rewrite (Hsame r Hnu). intros [= Hz].
        exact (Hcount r Hnem Hz). }
    split; [congruence|]. split; [congruence|]. split; [congruence|].
    split; [exact Eblocks|]. split; [exact Eruntimes|]. split; [|discriminate].
    intros l r Hl.
    assert ((l < length (registry (acc c)))%nat) as Hlt by (apply lookup_lt_Some in Hl; exact Hl).
    destruct (referenced_dec (runtimes acc1) l) as [[k Hk]|Hno].
    + rewrite (Hin2 k l Hk), Hrg1, lookup_app_l, Hl by exact Hlt. simpl.
      rewrite Hrt1 in Hk. destruct (decide (k = h)) as [->|Hkh].
      * rewrite lookup_insert_eq in Hk. injection Hk as <-. lia.
      * rewrite lookup_insert_ne in Hk by congruence.
        rewrite (Hsame r (Hnotused k l r Hk Hl)). reflexivity.
    + rewrite (Hout2 l Hno), Hrg1, lookup_app_l by exact Hlt. exact Hl.
  - destruct Hcase as [Hrt1 (l0 & Hl0 & Hrg1)].
    assert (registry acc2 = registry (acc c)) as Eregistry.
    { apply list_eq. intros l.
      destruct (referenced_dec (runtimes acc1) l) as [[k Hk]|Hno].
      - rewrite (Hin2 k l Hk), Hrg1. rewrite Hrt1 in Hk.
        destruct (Hlive k l Hk) as (r & Hl & _ & Hnu).
        destruct (decide (l = l0)) as [->|Hll].
        + rewrite list_lookup_alter_eq, Hl. simpl. rewrite (Hundo r Hnu). reflexivity.
        + rewrite list_lookup_alter_ne, Hl by congruence. simpl.
          rewrite (Hsame r Hnu). reflexivity.
      - rewrite (Hout2 l Hno), Hrg1. rewrite Hrt1 in Hno.
        rewrite list_lookup_alter_ne; [reflexivity|].
        intros <-. exact (Hno _ Hl0). }
    assert (runtimes acc2 = runtimes (acc c)) as Eruntimes.
    { apply map_eq. intros k. rewrite Hrt2, Hrt1.
      destruct (runtimes (acc c) !! k) as [l|] eqn:Hkl; [|reflexivity].
      destruct (Hlive k l Hkl) as (r & Hl & Hnem & Hnu).
      rewrite decide_False; [reflexivity|].
      unfold countAfter. rewrite Hrg1.
      destruct (decide (l = l0)) as [->|Hll].
      - rewrite list_lookup_alter_eq, Hl. simpl. rewrite (Hundo r Hnu).
        intros [= Hz]. exact (Hcount r Hnem Hz).
      - rewrite list_lookup_alter_ne, Hl by congruence. simpl.
        rewrite (Hsame r Hnu). intros [= Hz]. exact (Hcount r Hnem Hz). }
    split; [congruence|]. split; [congruence|]. split; [congruence|].
    split; [exact Eblocks|]. split; [exact Eruntimes|].
    split; [intros l r Hl; rewrite Eregistry; exact Hl|].
    intros _. destruct acc2, (acc c). simpl in *. congruence.
Qed.

Lemma newBlock_then_unpin_round_trip_witness :
  exists acc2,
    reduce announcedD (Unpin ["D"]) = Ok acc2 /\
    best acc2 = best (acc tickedOnce) /\ finalized acc2 = finalized (acc tickedOnce) /\
    finalizedRuntime acc2 = finalizedRuntime (acc tickedOnce) /\
    blocks acc2 = blocks (acc tickedOnce) /\ runtimes acc2 = runtimes (acc tickedOnce) /\
    (forall l r, registry (acc tickedOnce) !! l = Some r -> registry acc2 !! l = Some r) /\
    (false = false -> acc2 = acc tickedOnce).
Proof.
  apply (newBlock_then_unpin_round_trip tickedOnce "C" "D" false announcedD).
  - exact tickedOnce_conforming.
  - vm_compute. reflexivity.
  - vm_compute. reflexivity.
Defined.

(** ** What is left of an unpinned block *)

(** X14.  On a conforming stream a block that a tick has emitted leaves no trace:
    after the tick it is not tracked, it is among the children of no tracked
    block, and no Runtime object of [runtimes] counts it. *)
Theorem unpinned_block_leaves_no_trace c fuel c' out h :
  conforming c -> tick fuel c = Returns (c', out) -> h ∈ out ->
  blocks (acc c') !! h = None /\
  (forall k b, blocks (acc c') !! k = Some b -> h ∉ children b) /\
  (forall k l r, runtimes (acc c') !! k = Some l ->
                 registry (acc c') !! l = Some r -> h ∉ usages r).
Proof.
  intros Hc Ht Hh.
  destruct (conforming_wellFormed c' (conf_tick _ _ _ _ Hc Ht))
    as [(_ & [HA _] & _ & HR & _) _].
  assert (blocks (acc c') !! h = None) as Hgone.
  { destruct (tick_emits_idle_ancestors _ _ _ _ _
                (reachable_inv _ (conforming_reachable _ Hc)) Ht Hh)
      as (_ & _ & _ & Hred).
    destruct (reduce_unpin (acc c) out) as (a & E & _ & _ & _ & Hbl & _).
    rewrite E in Hred. injection Hred as ->. rewrite Hbl.
    apply unpinAll_lookup_in. exact Hh. }
  split; [exact Hgone|]. split.
  - intros k b Hb Hin. destruct (HA _ _ _ Hb Hin) as (bc & Hbc & _). congruence.
  - intros k l r Hk Hl Hin. destruct HR as (_ & _ & HT).
    destruct (HT k l Hk) as (r' & Hl' & _ & Hu).
    assert (r' = r) as -> by congruence.
    apply Hu in Hin as (b & Hb & _). congruence.
Qed.

Lemma unpinned_block_leaves_no_trace_witness :
  blocks (acc tickedTwice) !! "A" = None /\
  (forall k b, blocks (acc tickedTwice) !! k = Some b -> "A" ∉ children b) /\
  (forall k l r, runtimes (acc tickedTwice) !! k = Some l ->
                 registry (acc tickedTwice) !! l = Some r -> "A" ∉ usages r).
Proof.
  apply (unpinned_block_leaves_no_trace tickedOnce 3 tickedTwice ["B"; "A"] "A").
  - exact tickedOnce_conforming.
  - exact second_tick_emits.
  - right. left.
Defined.
